(** * ChessBlunderAnalysis: the game annotator of [analyze_and_parse_games.py]

    [analyze_game] replays the main line of a game on a board, asks a UCI
    engine for an evaluation after every half-move, and sorts the change of
    the evaluation into four lists of move numbers.  Everything the function
    computes itself is integer arithmetic on Python integers (unbounded, so
    [Z]); everything else is a call into the python-chess library, which is
    kept abstract below ([ChessLib]) and recorded, call by call, in a trace. *)

From Stdlib Require Import ZArith QArith Qround String List Bool Lia.
Import ListNotations.
Open Scope Z_scope.

(** ** Python exceptions and the effect monad *)

(** The exceptions that can leave [analyze_game]: the interpreter's
    [UnboundLocalError] for a local read before its first assignment, and
    whatever a library call raises. *)
Inductive exn (Err : Type) : Type :=
| UnboundLocalError (name : string)
| LibError (e : Err).
Arguments UnboundLocalError {Err} name.
Arguments LibError {Err} e.

(** A run of a piece of code against the outside world: how it ended, the
    state the outside world is left in, and the library calls it made, in
    order. *)
Record Run (Err Proc Ev A : Type) : Type := mkRun {
  outcome : exn Err + A;
  proc : Proc;
  trace : list Ev
}.
Arguments mkRun {Err Proc Ev A} outcome proc trace.
Arguments outcome {Err Proc Ev A} r.
Arguments proc {Err Proc Ev A} r.
Arguments trace {Err Proc Ev A} r.

Definition M (Err Proc Ev A : Type) : Type := Proc -> Run Err Proc Ev A.

Definition ret {Err Proc Ev A} (a : A) : M Err Proc Ev A :=
  fun p => mkRun (inr a) p [].

Definition raise {Err Proc Ev A} (e : exn Err) : M Err Proc Ev A :=
  fun p => mkRun (inl e) p [].

(** Sequencing: an exception in the first part skips the second. *)
Definition bind {Err Proc Ev A B}
    (m : M Err Proc Ev A) (f : A -> M Err Proc Ev B) : M Err Proc Ev B :=
  fun p =>
    let r := m p in
    match outcome r with
    | inl e => mkRun (inl e) (proc r) (trace r)
    | inr a => let r' := f a (proc r) in
               mkRun (outcome r') (proc r') (trace r ++ trace r')
    end.

Declare Scope py_scope.
Delimit Scope py_scope with py.
Notation "x <- c1 ;; c2" := (bind c1 (fun x => c2))
  (at level 100, c1 at next level, right associativity) : py_scope.
Notation "c1 ;; c2" := (bind c1 (fun _ => c2))
  (at level 100, right associativity) : py_scope.

(** ** The python-chess interface used by [analyze_game] *)

(** The library is not part of the repository.  Its types and calls are the
    fields of this class: [lib_push] is [board.push(move)], the four engine
    calls act on the state [Proc] of the engine process, and [white_score i m]
    is [i["score"].white().score(mate_score=m)].  Each call either returns or
    raises. *)
Class ChessLib : Type := {
  Board : Type;
  Move : Type;
  Info : Type;
  Err : Type;
  Proc : Type;
  lib_push : Board -> Move -> Err + Board;
  lib_popen_uci : string -> Proc -> Proc * (Err + unit);
  lib_configure : Z -> Proc -> Proc * (Err + unit);
  lib_analyse : Board -> Z -> Proc -> Proc * (Err + Info);
  lib_quit : Proc -> Proc * (Err + unit);
  white_score : Info -> Z -> Z
}.

Section Annotator.
Context {L : ChessLib}.

(** One entry of the trace per library call, with what the call gave back. *)
Inductive Event : Type :=
| EPopen (path : string) (r : Err + unit)
| EConfigure (threads : Z) (r : Err + unit)
| EPush (m : Move) (r : Err + Board)
| EAnalyse (b : Board) (depth : Z) (r : Err + Info)
| EQuit (r : Err + unit).

Definition Py (A : Type) : Type := M Err Proc Event A.

Definition lift_reply {A} (r : Err + A) : exn Err + A :=
  match r with
  | inl e => inl (LibError e)
  | inr a => inr a
  end.

(** A call into the engine process. *)
Definition invoke {A} (f : Proc -> Proc * (Err + A))
    (ev : Err + A -> Event) : Py A :=
  fun p => let (p', r) := f p in mkRun (lift_reply r) p' [ev r].

Definition popen_uci (path : string) : Py unit :=
  invoke (lib_popen_uci path) (EPopen path).
Definition configure (threads : Z) : Py unit :=
  invoke (lib_configure threads) (EConfigure threads).
Definition analyse (b : Board) (depth : Z) : Py Info :=
  invoke (lib_analyse b depth) (EAnalyse b depth).
Definition quit : Py unit :=
  invoke lib_quit EQuit.

(** [board.push(move)]: the board is changed in place, the process is not
    involved. *)
Definition push (b : Board) (m : Move) : Py Board :=
  fun p => mkRun (lift_reply (lib_push b m)) p [EPush m (lib_push b m)].

(** ** [analyze_game] *)

(** What [analyze_game] reads of its [game] argument: [game.board()] and
    [game.mainline_moves()].  (The headers are only printed.) *)
Record Game : Type := mkGame {
  game_board : Board;
  mainline_moves : list Move
}.

Definition mistake : Z := 100.
Definition blunder : Z := 300.

(** The locals of [analyze_game] that live across loop iterations.  [score]
    and [move_num] are first assigned inside the loop: [None] is "not yet
    bound". *)
Record Locals : Type := mkLocals {
  combined_move_num : Z;
  black_mistakes : list Z;
  black_blunders : list Z;
  white_mistakes : list Z;
  white_blunders : list Z;
  score : option Z;
  move_num : option Z
}.

(** Lines 38-42. *)
Definition init_locals : Locals :=
  mkLocals 1 [] [] [] [] None None.

(** Line 53: [int(math.ceil(combined_move_num / 2))].  [/] is true division
    to a double; for a count below 2^53, which no game in memory exceeds, the
    quotient by 2 is exact, so the ceiling is that of the rational number. *)
Definition move_num_of (combined_move_num : Z) : Z :=
  Qceiling (inject_Z combined_move_num / inject_Z 2)%Q.

(** The five ways the chain of tests of lines 57-64 can go. *)
Inductive Outcome : Type :=
| BlackBlunder
| BlackMistake
| WhiteBlunder
| WhiteMistake
| NoEvent.

(** Lines 57-64, the tests. *)
Definition classify (old_score score : Z) : Outcome :=
  if score - old_score >=? blunder then BlackBlunder
  else if score - old_score >=? mistake then BlackMistake
  else if score - old_score <=? 0 - blunder then WhiteBlunder
  else if score - old_score <=? 0 - mistake then WhiteMistake
  else NoEvent.

(** Lines 57-64, the appends. *)
Definition record_event (o : Outcome) (n : Z) (l : Locals) : Locals :=
  match o with
  | BlackBlunder =>
      mkLocals (combined_move_num l) (black_mistakes l)
        (black_blunders l ++ [n]) (white_mistakes l) (white_blunders l)
        (score l) (move_num l)
  | BlackMistake =>
      mkLocals (combined_move_num l) (black_mistakes l ++ [n])
        (black_blunders l) (white_mistakes l) (white_blunders l)
        (score l) (move_num l)
  | WhiteBlunder =>
      mkLocals (combined_move_num l) (black_mistakes l)
        (black_blunders l) (white_mistakes l) (white_blunders l ++ [n])
        (score l) (move_num l)
  | WhiteMistake =>
      mkLocals (combined_move_num l) (black_mistakes l)
        (black_blunders l) (white_mistakes l ++ [n]) (white_blunders l)
        (score l) (move_num l)
  | NoEvent => l
  end.

(** Lines 48-51: [old_score = score], and when [score] is still unbound the
    [UnboundLocalError] is caught and the evaluation just received is used. *)
Definition old_score_of (l : Locals) (info : Info) : Z :=
  match score l with
  | Some s => s
  | None => white_score info 1000
  end.

(** Lines 48-66: the loop body after the engine has answered. *)
Definition classify_body (l : Locals) (info : Info) : Locals :=
  let old_score := old_score_of l info in
  let n := move_num_of (combined_move_num l) in
  let s := white_score info 1000 in
  let l1 :=
    mkLocals (combined_move_num l) (black_mistakes l) (black_blunders l)
      (white_mistakes l) (white_blunders l) (Some s) (Some n) in
  let l2 := record_event (classify old_score s) n l1 in
  mkLocals (combined_move_num l2 + 1) (black_mistakes l2) (black_blunders l2)
    (white_mistakes l2) (white_blunders l2) (score l2) (move_num l2).

(** Lines 45-66: one iteration. *)
Definition loop_body (st : Board * Locals) (move : Move)
    : Py (Board * Locals) :=
  (b <- push (fst st) move ;;
   info <- analyse b 18 ;;
   ret (b, classify_body (snd st) info))%py.

(** Line 44: the [for] loop over the main line. *)
Fixpoint for_each (moves : list Move) (st : Board * Locals)
    : Py (Board * Locals) :=
  match moves with
  | [] => ret st
  | move :: rest => (st' <- loop_body st move ;; for_each rest st')%py
  end.

(** Line 70: the returned tuple; reading [move_num] fails when the loop body
    never ran. *)
Definition result_of (l : Locals)
    : Py (list Z * list Z * list Z * list Z * Z) :=
  match move_num l with
  | Some n =>
      ret (white_mistakes l, white_blunders l,
           black_mistakes l, black_blunders l, n)
  | None => raise (UnboundLocalError "move_num")
  end.

(** Lines 28-70.  The engine is started and configured, the loop runs,
    the engine is told to quit, the tuple is returned; an exception anywhere
    ends the function there, since nothing in it catches one.  The [print] of
    line 36 only writes the headers of the game to standard output and is
    left out. *)
Definition analyze_game (game : Game) (stockfish_path : string)
    : Py (list Z * list Z * list Z * list Z * Z) :=
  (popen_uci stockfish_path ;;
   configure 10 ;;
   st <- for_each (mainline_moves game) (game_board game, init_locals) ;;
   quit ;;
   result_of (snd st))%py.

End Annotator.

Arguments Event L : clear implicits.
Arguments Game L : clear implicits.

(** ** Reading a trace *)

Section Traces.
Context {L : ChessLib}.

Definition reply_error {A} (r : Err + A) : option Err :=
  match r with
  | inl e => Some e
  | inr _ => None
  end.

(** The exception a call raised, if it raised one. *)
Definition failure_of (ev : Event L) : option Err :=
  match ev with
  | EPopen _ r => reply_error r
  | EConfigure _ r => reply_error r
  | EPush _ r => reply_error r
  | EAnalyse _ _ r => reply_error r
  | EQuit r => reply_error r
  end.

Definition succeeded (ev : Event L) : bool :=
  match failure_of ev with
  | Some _ => false
  | None => true
  end.

Definition is_quit (ev : Event L) : bool :=
  match ev with
  | EQuit _ => true
  | _ => false
  end.

(** How often [engine.quit()] was called. *)
Definition quits (tr : list (Event L)) : nat :=
  length (filter is_quit tr).

(** The answers of the engine, in order. *)
Fixpoint infos_of (tr : list (Event L)) : list Info :=
  match tr with
  | [] => []
  | EAnalyse _ _ (inr info) :: tr' => info :: infos_of tr'
  | _ :: tr' => infos_of tr'
  end.

(** The evaluations [analyze_game] takes from those answers. *)
Definition evaluations (tr : list (Event L)) : list Z :=
  map (fun info => white_score info 1000) (infos_of tr).

(** The moves handed to [board.push], in order. *)
Fixpoint pushed_moves (tr : list (Event L)) : list Move :=
  match tr with
  | [] => []
  | EPush m _ :: tr' => m :: pushed_moves tr'
  | _ :: tr' => pushed_moves tr'
  end.

(** The number of evaluation requests sent to the engine. *)
Fixpoint analyses (tr : list (Event L)) : nat :=
  match tr with
  | [] => 0
  | EAnalyse _ _ _ :: tr' => S (analyses tr')
  | _ :: tr' => analyses tr'
  end.

(** The number of entries in the four lists. *)
Definition events_total (l : Locals) : nat :=
  (length (white_mistakes l) + length (white_blunders l)
   + length (black_mistakes l) + length (black_blunders l))%nat.

Definition all_events (l : Locals) : list Z :=
  white_mistakes l ++ white_blunders l ++ black_mistakes l ++ black_blunders l.

End Traces.

(** ** python-chess scores *)

(** [chess.engine.Score] and [chess.engine.PovScore] as python-chess defines
    them (the library is a dependency, not a file of the repository): a score
    is [Cp(cp)], [Mate(moves)] or [MateGiven].  [score] is
    [Score.score(mate_score=...)]: the centipawns of a [Cp], [mate_score -
    moves] for a [Mate] with [moves > 0], [-mate_score - moves] for any other
    [Mate], [mate_score] for [MateGiven].  [neg] is unary minus, [pov] and
    [white] are [PovScore.pov] and [PovScore.white]: the relative score for
    the side to move, its negation for the other side. *)
Module PyChess.

Inductive Color : Type := WHITE | BLACK.

Definition color_eqb (a b : Color) : bool :=
  match a, b with
  | WHITE, WHITE | BLACK, BLACK => true
  | _, _ => false
  end.

Inductive Score : Type :=
| Cp (cp : Z)
| Mate (moves : Z)
| MateGiven.

Definition score (mate_score : Z) (s : Score) : Z :=
  match s with
  | Cp cp => cp
  | Mate moves =>
      if moves >? 0 then mate_score - moves else - mate_score - moves
  | MateGiven => mate_score
  end.

Definition neg (s : Score) : Score :=
  match s with
  | Cp cp => Cp (- cp)
  | Mate moves => if moves =? 0 then MateGiven else Mate (- moves)
  | MateGiven => Mate 0
  end.

Record PovScore : Type := mkPovScore {
  relative : Score;
  turn : Color
}.

Definition pov (color : Color) (p : PovScore) : Score :=
  if color_eqb (turn p) color then relative p else neg (relative p).

Definition white (p : PovScore) : Score := pov WHITE p.

End PyChess.


(** ** A scripted engine *)

(** A stand-in for the engine process whose answers are fixed in advance: the
    process state is the list of answers still to come.  Moves are UCI
    strings and a board is the stack of moves pushed so far. *)
Module Scripted.

Inductive ScriptErr : Type :=
| EngineTerminatedError
| AssertionError.

Definition Reply : Type := (ScriptErr + PyChess.PovScore)%type.

Definition script_analyse (b : list string) (depth : Z) (p : list Reply)
    : list Reply * Reply :=
  match p with
  | [] => ([], inl EngineTerminatedError)
  | r :: rest => (rest, r)
  end.

Definition always_ok (p : list Reply) : list Reply * (ScriptErr + unit) :=
  (p, inr tt).

(** [Board.push] does not check legality; it only asserts that the move can
    be carried out at all.  [accepts] says for which moves that is so. *)
Definition script_push (accepts : list string -> string -> bool)
    (b : list string) (m : string) : ScriptErr + list string :=
  if accepts b m then inr (b ++ [m]) else inl AssertionError.

Definition lib (accepts : list string -> string -> bool) : ChessLib := {|
  Board := list string;
  Move := string;
  Info := PyChess.PovScore;
  Err := ScriptErr;
  Proc := list Reply;
  lib_push := script_push accepts;
  lib_popen_uci := fun _ => always_ok;
  lib_configure := fun _ => always_ok;
  lib_analyse := script_analyse;
  lib_quit := always_ok;
  white_score := fun info m => PyChess.score m (PyChess.white info)
|}.


Definition any_move (b : list string) (m : string) : bool := true.

(** An answer with White to move, so that the score is already White's. *)
Definition cp (z : Z) : Reply :=
  inr (PyChess.mkPovScore (PyChess.Cp z) PyChess.WHITE).

Definition game_of (moves : list string) : Game (lib any_move) :=
  @mkGame (lib any_move) [] moves.

Definition stockfish : string := "stockfish".

Definition run (moves : list string) (script : list Reply) :=
  @analyze_game (lib any_move) (game_of moves) stockfish script.

(** The twenty moves that are legal in the starting position of chess. *)
Definition first_moves : list string :=
  ["a2a3"; "a2a4"; "b2b3"; "b2b4"; "c2c3"; "c2c4"; "d2d3"; "d2d4";
   "e2e3"; "e2e4"; "f2f3"; "f2f4"; "g2g3"; "g2g4"; "h2h3"; "h2h4";
   "b1a3"; "b1c3"; "g1f3"; "g1h3"]%string.

Definition first_move_legal (m : string) : bool :=
  existsb (String.eqb m) first_moves.

(** A library whose [push] refuses a first move outside [first_moves]. *)
Definition opening_only (b : list string) (m : string) : bool :=
  match b with
  | [] => first_move_legal m
  | _ => true
  end.

Definition five_plies : list string :=
  ["e2e4"; "e7e5"; "g1f3"; "b8c6"; "f1c4"]%string.

Definition six_plies : list string :=
  ["e2e4"; "e7e5"; "g1f3"; "b8c6"; "f1c4"; "f8c5"]%string.

Definition scenario : list Reply :=
  [cp 20; cp 20; cp (-310); cp (-310); cp (-50)].

(** [run] with a [push] that refuses a first move outside [first_moves]. *)
Definition run_checked (moves : list string) (script : list Reply) :=
  @analyze_game (lib opening_only)
    (@mkGame (lib opening_only) [] moves) stockfish script.

(** The loop state of [run five_plies scenario] after two and after three
    plies. *)
Definition after_two : list string * Locals :=
  (["e2e4"; "e7e5"]%string, mkLocals 3 [] [] [] [] (Some 20) (Some 1)).

Definition after_three : list string * Locals :=
  (["e2e4"; "e7e5"; "g1f3"]%string,
   mkLocals 4 [] [] [] [2] (Some (-310)) (Some 2)).

(** The engine dies while the fourth position is being evaluated. *)
Definition dies_at_four : list Reply :=
  [cp 20; cp 20; cp 35; inl EngineTerminatedError; cp 30; cp 30].

End Scripted.

(** ** Properties of runs used in the statements *)

Section Discipline.
Context {L : ChessLib}.

(** The locals after the engine has answered [infos], one answer per ply. *)
Definition annotate (infos : list Info) : Locals :=
  fold_left classify_body infos init_locals.

(** No call in the trace raised. *)
Definition clean (tr : list (Event L)) : Prop :=
  Forall (fun ev => failure_of ev = None) tr.

(** A library exception ends the run at the call that raised it. *)
Definition disciplined {A} (r : Run Err Proc (Event L) A) : Prop :=
  match outcome r with
  | inl (LibError e) =>
      exists tr ev,
        trace r = tr ++ [ev] /\ clean tr /\ failure_of ev = Some e
  | _ => clean (trace r)
  end.

(** [l'] is [l] with [n] appended to at most one of the four lists. *)
Definition appended_at_most (n : Z) (l l' : Locals) : Prop :=
  (white_mistakes l' = white_mistakes l
   \/ white_mistakes l' = white_mistakes l ++ [n])
  /\ (white_blunders l' = white_blunders l
      \/ white_blunders l' = white_blunders l ++ [n])
  /\ (black_mistakes l' = black_mistakes l
      \/ black_mistakes l' = black_mistakes l ++ [n])
  /\ (black_blunders l' = black_blunders l
      \/ black_blunders l' = black_blunders l ++ [n])
  /\ (events_total l' <= events_total l + 1)%nat.

(** What holds of the locals once [k] plies have been processed. *)
Definition plies_invariant (k : nat) (l : Locals) : Prop :=
  combined_move_num l = Z.of_nat k + 1
  /\ (k = 0%nat -> score l = None /\ move_num l = None)
  /\ (k <> 0%nat ->
      score l <> None /\ move_num l = Some (move_num_of (Z.of_nat k)))
  /\ (events_total l <= k - 1)%nat
  /\ Forall (fun n => 1 <= n <= move_num_of (Z.of_nat k)) (all_events l).

(** Every call other than [engine.quit()] returned. *)
Definition loop_completed (tr : list (Event L)) : bool :=
  forallb (fun ev => succeeded ev || is_quit ev) tr.



End Discipline.

(** * The rest of [analyze_and_parse_games.py] *)

From Stdlib Require Import Ascii NArith Sorted.

(** ** Python strings and the regular expressions of the source *)

(** A Python [str] is a sequence of code points.  Slices and matches count
    code points, so a string is a list of them here. *)
Module PyStr.

Definition str : Type := list N.

(** The code points of an ASCII literal. *)
Definition py (s : string) : str :=
  map N_of_ascii (list_ascii_of_string s).

Definition newline : N := 10.
Definition quote : N := 34.
Definition comma : N := 44.
Definition colon : N := 58.
Definition rbrace : N := 125.

Fixpoint eqb (a b : str) : bool :=
  match a, b with
  | [], [] => true
  | x :: a', y :: b' => (x =? y)%N && eqb a' b'
  | _, _ => false
  end.

(** [s[:-n]] for [n > 0]: all but the last [n] code points, nothing when
    there are no more than [n]. *)
Definition drop_last (n : nat) (s : str) : str :=
  firstn (length s - n) s.

(** [s[a:-b]] for [b > 0]. *)
Definition slice (a b : nat) (s : str) : str :=
  skipn a (drop_last b s).

(** [s] begins with [p]. *)
Fixpoint starts_with (p s : str) : bool :=
  match p, s with
  | [], _ => true
  | _ :: _, [] => false
  | x :: p', y :: s' => (x =? y)%N && starts_with p' s'
  end.

(** What [.] matches: everything under [re.DOTALL], everything but a newline
    otherwise. *)
Definition dot (dotall : bool) (c : N) : bool :=
  dotall || negb (c =? newline)%N.

(** [.*?q] at the start of [s]: the matcher tries [q] first and lets [.]
    take one more code point when [q] does not match.  The result is the
    text matched and what follows it. *)
Fixpoint lazy_then (dotall : bool) (q s : str) : option (str * str) :=
  if starts_with q s then Some (q, skipn (length q) s)
  else
    match s with
    | [] => None
    | c :: s' =>
        if dot dotall c then
          match lazy_then dotall q s' with
          | Some (m, r) => Some (c :: m, r)
          | None => None
          end
        else None
    end.

(** The pattern [p.*?q], with [p] and [q] literal, at the start of [s]. *)
Definition match_at (dotall : bool) (p q s : str) : option (str * str) :=
  if starts_with p s then
    match lazy_then dotall q (skipn (length p) s) with
    | Some (m, r) => Some (p ++ m, r)
    | None => None
    end
  else None.

(** [re.search] for the pattern [p.*?q]: the match at the leftmost position
    that has one, as the text before it, [group(0)] and the text after it;
    [None] when no position has a match. *)
Fixpoint search (dotall : bool) (p q s : str) : option (str * str * str) :=
  match match_at dotall p q s with
  | Some (m, r) => Some ([], m, r)
  | None =>
      match s with
      | [] => None
      | c :: s' =>
          match search dotall p q s' with
          | Some (b, m, r) => Some (c :: b, m, r)
          | None => None
          end
      end
  end.

(** [.*] without [re.DOTALL] at the start of [s]: the rest of the line. *)
Fixpoint line_rest (s : str) : str :=
  match s with
  | [] => []
  | c :: s' => if (c =? newline)%N then [] else c :: line_rest s'
  end.

(** [re.search] for the pattern [p.*], with [p] literal: [group(0)] of the
    leftmost match. *)
Fixpoint search_greedy (p s : str) : option str :=
  if starts_with p s then Some (p ++ line_rest (skipn (length p) s))
  else
    match s with
    | [] => None
    | _ :: s' => search_greedy p s'
    end.

(** [c] is one of the code points of [s]. *)
Definition has (c : N) (s : str) : bool :=
  existsb (N.eqb c) s.

(** A search result found after skipping [a]. *)
Definition shifted (a : str) (r : option (str * str * str))
    : option (str * str * str) :=
  match r with
  | Some (b, m, t) => Some (a ++ b, m, t)
  | None => None
  end.

(** [p] occurs in [s]. *)
Fixpoint occurs (p s : str) : bool :=
  starts_with p s
  || match s with
     | [] => false
     | _ :: s' => occurs p s'
     end.

End PyStr.

(** ** [get_opening_name] *)

Module Opening.
Import PyStr.

(** Lines 89-97, on the title of the page that lines 85-87 fetch and parse.
    Both searches are in the [try]: when either finds nothing, [.group]
    raises [AttributeError] on [None] and the [except] gives the full name
    and an empty variation. *)
Definition opening_names (title : str) : str * str * str :=
  let full_opening_name := drop_last 29 title in
  match search false [] [colon] full_opening_name,
        search_greedy [colon] full_opening_name with
  | Some (_, m, _), Some g =>
      (full_opening_name, drop_last 1 m, skipn 2 g)
  | _, _ => (full_opening_name, full_opening_name, [])
  end.

(** The text the comment of line 89 says is removed. *)
Definition title_suffix : str := py " - Chess Openings - Chess.com".

End Opening.

(** ** The accuracies of a game record *)

Module Accuracy.
Import PyStr.

Definition accuracies_key : str :=
  quote :: py "accuracies" ++ quote :: py ":{" ++ quote :: py "white"
  ++ quote :: py ":".
Definition white_key : str := quote :: py "white" ++ quote :: py ":".
Definition black_key : str := quote :: py "black" ++ quote :: py ":".

(** Lines 142-148, on [games_data[game_count]]: the three searches are in one
    [try], and a search that finds nothing makes both accuracies empty. *)
Definition accuracies_of (record : str) : str * str :=
  match search false accuracies_key [rbrace] record with
  | Some (_, accuracies, _) =>
      match search false white_key [comma] accuracies,
            search false black_key [rbrace] accuracies with
      | Some (_, w, _), Some (_, b, _) => (slice 8 1 w, slice 8 1 b)
      | _, _ => ([], [])
      end
  | None => ([], [])
  end.

End Accuracy.

(** ** One row of the CSV file *)

Module Report.
Import PyStr.

(** A cell of a row: the rows hold strings and integers. *)
Inductive Cell : Type :=
| CStr (s : str)
| CInt (n : Z).

Inductive index_error : Type := IndexError.

(** [cell == s] for a string [s]. *)
Definition cell_is (c : Cell) (s : str) : bool :=
  match c with
  | CStr t => eqb t s
  | CInt _ => false
  end.

(** [row_data[i] == s]; the subscript raises on a row that is too short. *)
Definition is_at (row_data : list Cell) (i : nat) (s : str)
    : index_error + bool :=
  match nth_error row_data i with
  | Some c => inr (cell_is c s)
  | None => inl IndexError
  end.

(** [a and b] and [a or b]: the right operand is evaluated only when the
    left one does not decide. *)
Definition and_sc (a b : index_error + bool) : index_error + bool :=
  match a with
  | inr true => b
  | _ => a
  end.

Definition or_sc (a b : index_error + bool) : index_error + bool :=
  match a with
  | inr false => b
  | _ => a
  end.

(** [if c: t, else: e] for a condition that may raise. *)
Definition branch {A} (c : index_error + bool) (t e : index_error + A)
    : index_error + A :=
  match c with
  | inl err => inl err
  | inr true => t
  | inr false => e
  end.

(** Lines 127-132: the header row of the CSV file. *)
Definition csv_headers : list str :=
  map py
    ["Event"; "Site"; "Date"; "Round"; "White"; "Black"; "Result";
     "CurrentPosition"; "TimeZone"; "ECO"; "ECOUrl"; "UTCDate"; "UTCTime";
     "WhiteElo"; "BlackElo"; "TimeControl"; "Termination"; "StartTime";
     "EndDate"; "EndTime"; "Link"; "Full Opening Name"; "Main Opening Name";
     "Variation Opening Name"; "Win-Loss-Draw"; "Total Moves";
     "White Accuracy"; "Black Accuracay"; "Black Total Blunders";
     "Black Total Mistakes"; "White Total Blundres"; "White Total Mistakes";
     "Black First Blunder"; "Black First Mistake"; "White First Blunder";
     "White First Mistake"]%string.

(** Lines 165-176: the word appended for the user's result, [None] when the
    [else] branch is taken, which appends nothing. *)
Definition win_loss_draw (user_name : str) (row_data : list Cell)
    : index_error + option str :=
  branch (and_sc (is_at row_data 6 (py "1-0")) (is_at row_data 4 user_name))
    (inr (Some (py "Win")))
  (branch (and_sc (is_at row_data 6 (py "1-0")) (is_at row_data 5 user_name))
    (inr (Some (py "Loss")))
  (branch (and_sc (is_at row_data 6 (py "0-1")) (is_at row_data 5 user_name))
    (inr (Some (py "Win")))
  (branch (and_sc (is_at row_data 6 (py "0-1")) (is_at row_data 4 user_name))
    (inr (Some (py "Loss")))
  (branch (and_sc (is_at row_data 6 (py "1/2-1/2"))
             (or_sc (is_at row_data 4 user_name)
                    (is_at row_data 5 user_name)))
    (inr (Some (py "Draw")))
    (inr None))))).

(** The number of cells the word takes. *)
Definition word_cells (word : option str) : nat :=
  match word with
  | Some _ => 1
  | None => 0
  end.

(** Lines 181-199: [l[0]], and the empty string on [IndexError]. *)
Definition first_or_empty (l : list Z) : Cell :=
  match l with
  | n :: _ => CInt n
  | [] => CStr []
  end.

Definition len (l : list Z) : Cell := CInt (Z.of_nat (length l)).

(** Lines 163-199: the row, from the header values of the game (lines
    155-159), the three names of [get_opening_name], the tuple returned by
    [analyze_game] and the two accuracies. *)
Definition finish_row (user_name : str) (row_data : list Cell)
    (names : str * str * str)
    (analysis : list Z * list Z * list Z * list Z * Z)
    (white_accuracy black_accuracy : str) : index_error + list Cell :=
  let '(full_opening_name, main_opening_name, variation_opening_name) :=
    names in
  let '(white_mistakes, white_blunders, black_mistakes, black_blunders,
        move_num) := analysis in
  let row1 :=
    row_data ++ [CStr full_opening_name; CStr main_opening_name;
                 CStr variation_opening_name] in
  match win_loss_draw user_name row1 with
  | inl err => inl err
  | inr word =>
      let row2 :=
        match word with
        | Some w => row1 ++ [CStr w]
        | None => row1
        end in
      let row3 :=
        row2 ++ [CInt move_num; CStr white_accuracy; CStr black_accuracy;
                 len black_blunders; len black_mistakes; len white_blunders;
                 len white_mistakes] in
      inr (row3 ++ [first_or_empty black_blunders]
           ++ [first_or_empty black_mistakes]
           ++ [first_or_empty white_blunders]
           ++ [first_or_empty white_mistakes])
  end.

(** Lines 155-161: the row starts as the values of the game's headers, and
    the eleventh of them is the address given to [get_opening_name]. *)
Definition header_cells (header_values : list str) : list Cell :=
  map CStr header_values.

(** How a count cell and the first-event cell next to it go together: no
    event and an empty cell, or a first move number between 1 and the total
    number of moves. *)
Definition first_cell_ok (total : Z) (count : Z) (first : Cell) : Prop :=
  (count = 0 /\ first = CStr [])
  \/ (1 <= count /\ exists m, first = CInt m /\ 1 <= m <= total).

Definition eco_url (header_values : list str) : index_error + str :=
  match nth_error header_values 10 with
  | Some url => inr url
  | None => inl IndexError
  end.

End Report.

(** ** What a completed analysis asked of the library *)

Section Replay.
Context {L : ChessLib}.

(** The calls of the loop on the moves [moves] from the board [b] when none
    of them raises: each move is pushed on the board reached so far and the
    resulting position is evaluated once, at depth 18. *)
Inductive replay : Board -> list Move -> list (Event L) -> Prop :=
| replay_done (b : Board) : replay b [] []
| replay_ply (b b' : Board) (m : Move) (info : Info) (moves : list Move)
    (tr : list (Event L)) :
    lib_push b m = inr b' ->
    replay b' moves tr ->
    replay b (m :: moves)
      (EPush m (inr b') :: EAnalyse b' 18 (inr info) :: tr).

(** After [k] plies every list is in non-decreasing order and no move
    number occurs more than twice in the four lists together. *)
Definition order_invariant (k : nat) (l : Locals) : Prop :=
  StronglySorted Z.le (white_mistakes l)
  /\ StronglySorted Z.le (white_blunders l)
  /\ StronglySorted Z.le (black_mistakes l)
  /\ StronglySorted Z.le (black_blunders l)
  /\ (forall m, (count_occ Z.eq_dec (all_events l) m <= 2)%nat)
  /\ (forall m, move_num_of (Z.of_nat k) < m ->
        count_occ Z.eq_dec (all_events l) m = 0%nat)
  /\ (Z.odd (Z.of_nat k) = true ->
      (count_occ Z.eq_dec (all_events l) (move_num_of (Z.of_nat k)) <= 1)%nat).

End Replay.

(** ** The loop of [parse_pgn_to_csv] over the games *)

(** Lines 85-87 of [get_opening_name]: the page at an address is fetched and
    parsed, which gives the string of its title or raises. *)
Class TitleLib : Type := {
  Web : Type;
  WebErr : Type;
  lib_title : PyStr.str -> Web -> Web * (WebErr + PyStr.str)
}.

Module Games.
Import PyStr.

Definition pgn_key : str := quote :: py "pgn" ++ quote :: py ":".
Definition eco_key : str := py "eco" ++ quote :: py ":".

(** [re.findall] for the pattern [p.*?q] under [re.DOTALL], [p] not empty:
    the matches from left to right, each search starting where the match
    before it ended.  A text has at most as many matches as code points. *)
Fixpoint findall_from (fuel : nat) (p q s : str) : list str :=
  match fuel with
  | O => []
  | S fuel' =>
      match search true p q s with
      | Some (_, m, rest) => m :: findall_from fuel' p q rest
      | None => []
      end
  end.

Definition findall (p q s : str) : list str :=
  findall_from (S (length s)) p q s.

(** Line 118. *)
Definition games_data_of (txt : str) : list str :=
  findall pgn_key eco_key txt.

(** A record of a game in the [.txt] file: the key of the PGN text, a body
    and the key of the opening. *)
Definition record_of (body : str) : str := pgn_key ++ body ++ eco_key.

(** A text made of records, each after some text that is not part of a
    record, and of a rest. *)
Fixpoint records_text (items : list (str * str)) (rest : str) : str :=
  match items with
  | [] => rest
  | (before, body) :: items' =>
      before ++ record_of body ++ records_text items' rest
  end.

(** The text before a record holds no key of a PGN text, and the body of a
    record holds the key of the opening only at its end. *)
Definition well_separated (item : str * str) : Prop :=
  occurs pgn_key (fst item ++ removelast pgn_key) = false
  /\ occurs eco_key (snd item ++ removelast eco_key) = false.

End Games.

Section Batch.
Context {L : ChessLib} {T : TitleLib}.
Import PyStr Report.

(** What the loop uses of a game that [chess.pgn.read_game] returns: the
    values of its headers, in the order in which the headers are iterated,
    and what [analyze_game] reads. *)
Record GameRecord : Type := mkRecord {
  record_headers : list str;
  record_game : Game L
}.

(** The exceptions that can leave the body of the loop. *)
Inductive batch_exn : Type :=
| AnalysisError (e : exn Err)
| BatchIndexError
| TitleError (e : WebErr).

(** The state of the loop: the rows written after the header row, the
    counter, the engine process and the web as the calls so far left them,
    the calls made to the engine and the addresses fetched, and the exception
    that ended the loop, if one did. *)
Record Batch : Type := mkBatch {
  rows : list (list Cell);
  game_count : nat;
  engine : Proc;
  web : Web;
  calls : list (Event L);
  fetched : list str;
  failure : option batch_exn
}.

Definition start (p : Proc) (w : Web) : Batch :=
  mkBatch [] 0 p w [] [] None.

Definition fail (b : Batch) (e : batch_exn) : Batch :=
  mkBatch (rows b) (game_count b) (engine b) (web b) (calls b) (fetched b)
    (Some e).

(** Lines 142-202: one game.  [games_data[game_count]] may raise
    [IndexError], which the [except AttributeError] of line 146 does not
    catch; [analyze_game] runs on the engine process as the game before left
    it; then come the address of the opening page, its title, and the
    row. *)
Definition process_game (user_name : str) (stockfish_path : string)
    (games_data : list str) (b : Batch) (g : GameRecord) : Batch :=
  match nth_error games_data (game_count b) with
  | None => fail b BatchIndexError
  | Some data =>
      let '(white_accuracy, black_accuracy) := Accuracy.accuracies_of data in
      let r := analyze_game (record_game g) stockfish_path (engine b) in
      let b1 :=
        mkBatch (rows b) (game_count b) (proc r) (web b)
          (calls b ++ trace r) (fetched b) None in
      match outcome r with
      | inl e => fail b1 (AnalysisError e)
      | inr analysis =>
          match eco_url (record_headers g) with
          | inl _ => fail b1 BatchIndexError
          | inr url =>
              let (w', t) := lib_title url (web b1) in
              let b2 :=
                mkBatch (rows b1) (game_count b1) (engine b1) w' (calls b1)
                  (fetched b1 ++ [url]) None in
              match t with
              | inl e => fail b2 (TitleError e)
              | inr title =>
                  match
                    finish_row user_name (header_cells (record_headers g))
                      (Opening.opening_names title) analysis
                      white_accuracy black_accuracy
                  with
                  | inl _ => fail b2 BatchIndexError
                  | inr row =>
                      mkBatch (rows b2 ++ [row]) (S (game_count b2))
                        (engine b2) (web b2) (calls b2) (fetched b2) None
                  end
              end
          end
      end
  end.

(** Lines 136-202: the [while] loop.  An exception leaves it; the outer
    [except] of line 208 catches it, and what was written stays in the
    file. *)
Fixpoint games_loop (user_name : str) (stockfish_path : string)
    (games_data : list str) (games : list GameRecord) (b : Batch) : Batch :=
  match games with
  | [] => b
  | g :: rest =>
      let b' := process_game user_name stockfish_path games_data b g in
      match failure b' with
      | Some _ => b'
      | None => games_loop user_name stockfish_path games_data rest b'
      end
  end.

(** Lines 117-204, once the three files are open: [txt] is the text of the
    [.txt] file and [games] the games that [chess.pgn.read_game] returns one
    after the other. *)
Definition parse_games (user_name : str) (stockfish_path : string)
    (txt : str) (games : list GameRecord) (p : Proc) (w : Web) : Batch :=
  games_loop user_name stockfish_path (Games.games_data_of txt) games
    (start p w).

(** The rows of the CSV file: the header row of line 133, then the rows of
    the games. *)
Definition csv_rows (b : Batch) : list (list Cell) :=
  map CStr csv_headers :: rows b.

End Batch.

(** * [download_and_merge_game_files.py] *)

(** ** [os.path.splitext] on the names of a directory listing *)

Module OsPath.
Import PyStr.

Definition dot_char : N := 46.

(** [(p[:i], p[i:])] for the index [i] of the last dot of [p], if it has
    one. *)
Fixpoint split_last_dot (p : str) : option (str * str) :=
  match p with
  | [] => None
  | c :: p' =>
      match split_last_dot p' with
      | Some (a, e) => Some (c :: a, e)
      | None => if (c =? dot_char)%N then Some ([], c :: p') else None
      end
  end.

(** [os.path.splitext(p)] for a name without a separator: the extension
    starts at the last dot, unless only dots come before it. *)
Definition splitext (p : str) : str * str :=
  match split_last_dot p with
  | Some (a, e) =>
      if forallb (fun c => (c =? dot_char)%N) a then (p, []) else (a, e)
  | None => (p, [])
  end.

(** A name that holds no separator, neither [/] nor the backslash of
    Windows. *)
Definition plain (p : str) : bool :=
  negb (has 47 p) && negb (has 92 p).

End OsPath.

(** ** [get_txt_and_pgn_filenames] *)

Module Listing.
Import PyStr OsPath.

(** What the function finds at [path]: nothing, or something that
    [os.listdir] either refuses with an error or lists.  A listed name comes
    with the answer of [os.path.isfile] for it. *)
Inductive PathState (E : Type) : Type :=
| Missing
| Present (listing : E + list (str * bool)).
Arguments Missing {E}.
Arguments Present {E} listing.

Inductive os_error (E : Type) : Type :=
| FileNotFoundError
| OSError (e : E).
Arguments FileNotFoundError {E}.
Arguments OSError {E} e.

(** Lines 76-80: one turn of the loop over the listing. *)
Definition sort_item (acc : list str * list str) (entry : str * bool)
    : list str * list str :=
  let '(txt_file_names, pgn_file_names) := acc in
  let '(item, isfile) := entry in
  if isfile then
    if eqb (snd (splitext item)) (py ".txt") then
      (txt_file_names ++ [item], pgn_file_names)
    else if eqb (snd (splitext item)) (py ".pgn") then
      (txt_file_names, pgn_file_names ++ [item])
    else acc
  else acc.

(** Lines 71-83. *)
Definition get_txt_and_pgn_filenames {E} (path : PathState E)
    : os_error E + (list str * list str) :=
  match path with
  | Present (inr listing) => inr (fold_left sort_item listing ([], []))
  | Present (inl e) => inl (OSError e)
  | Missing => inl FileNotFoundError
  end.

(** A name that [splitext] gives the extension [ext]: a stem that is not
    made of dots only, a dot, and [ext]. *)
Definition named (ext item : str) : Prop :=
  exists stem,
    item = stem ++ dot_char :: ext
    /\ forallb (fun c => (c =? dot_char)%N) stem = false.

End Listing.

(** ** [merge_files] *)

Module Merge.
Import PyStr.

(** What a call into the file system can raise: [FileNotFoundError], which
    the loop catches, or any other exception ([PermissionError],
    [IsADirectoryError], [UnicodeDecodeError], ...). *)
Inductive Raised (E : Type) : Type :=
| FileNotFoundError
| Other (e : E).
Arguments FileNotFoundError {E}.
Arguments Other {E} e.

(** The file system as [merge_files] uses it.  [Disk] is its state, open
    files and their buffers included, so that what a read gives may depend
    on what was written before, as it does when [file_list] names the output
    file.  [lib_open_w] is [open(name, 'w')], [lib_open_r] is
    [open(name, 'r')], [lib_next] is one step of [for line in infile] (a
    line, or [None] at the end of the file), [lib_write] is
    [outfile.write(s)], and the two [close] calls are those the [with]
    statements make.  Each call either returns or raises. *)
Class FileLib : Type := {
  Disk : Type;
  OsErr : Type;
  Infile : Type;
  Outfile : Type;
  lib_open_w : str -> Disk -> Disk * (Raised OsErr + Outfile);
  lib_open_r : str -> Disk -> Disk * (Raised OsErr + Infile);
  lib_next : Infile -> Disk -> Disk * (Raised OsErr + option str);
  lib_write : Outfile -> str -> Disk -> Disk * (Raised OsErr + unit);
  lib_close_r : Infile -> Disk -> Disk * (Raised OsErr + unit);
  lib_close_w : Outfile -> Disk -> Disk * (Raised OsErr + unit)
}.

Section Model.
Context {F : FileLib}.

(** One entry per call, with what the call gave back, and one per line
    printed. *)
Inductive FEvent : Type :=
| EOpenW (name : str) (r : Raised OsErr + Outfile)
| EOpenR (name : str) (r : Raised OsErr + Infile)
| ENext (infile : Infile) (r : Raised OsErr + option str)
| EWrite (outfile : Outfile) (s : str) (r : Raised OsErr + unit)
| ECloseR (infile : Infile) (r : Raised OsErr + unit)
| ECloseW (outfile : Outfile) (r : Raised OsErr + unit)
| EPrint (s : str).

(** How a run ends.  [OutOfFuel] is not an exception: it marks a run that is
    cut off inside a file whose lines have not come to an end, and nothing
    is modelled after it. *)
Inductive Ending (A : Type) : Type :=
| Returns (a : A)
| Raises (e : Raised OsErr)
| OutOfFuel.
Arguments Returns {A} a.
Arguments Raises {A} e.
Arguments OutOfFuel {A}.

Record Ran (A : Type) : Type := mkRan {
  ending : Ending A;
  disk : Disk;
  calls : list FEvent
}.
Arguments mkRan {A} ending disk calls.
Arguments ending {A} r.
Arguments disk {A} r.
Arguments calls {A} r.

Definition Fm (A : Type) : Type := Disk -> Ran A.

Definition fret {A} (a : A) : Fm A :=
  fun d => mkRan (Returns a) d [].

Definition fbind {A B} (m : Fm A) (f : A -> Fm B) : Fm B :=
  fun d =>
    let r := m d in
    match ending r with
    | Returns a =>
        let r' := f a (disk r) in
        mkRan (ending r') (disk r') (calls r ++ calls r')
    | Raises e => mkRan (Raises e) (disk r) (calls r)
    | OutOfFuel => mkRan OutOfFuel (disk r) (calls r)
    end.

Definition call {A} (f : Disk -> Disk * (Raised OsErr + A))
    (ev : Raised OsErr + A -> FEvent) : Fm A :=
  fun d =>
    let (d', r) := f d in
    mkRan match r with
          | inl e => Raises e
          | inr a => Returns a
          end d' [ev r].

(** [with ... as f: body], once the file is open: the file is closed when
    the body is left, by its end or by an exception, and an exception of
    [close] takes the place of the one of the body. *)
Definition closing {A} (close : Fm unit) (body : Fm A) : Fm A :=
  fun d =>
    let r := body d in
    match ending r with
    | OutOfFuel => r
    | _ =>
        let c := close (disk r) in
        mkRan match ending c with
              | Returns _ => ending r
              | Raises e => Raises e
              | OutOfFuel => OutOfFuel
              end (disk c) (calls r ++ calls c)
    end.

Definition two_newlines : str := [newline; newline].

Definition infile_name (path filename : str) : str :=
  path ++ py "/" ++ filename.

Definition not_found_message (path filename : str) : str :=
  py "File not found: " ++ infile_name path filename.

(** Lines 99-100: [for line in infile: outfile.write(line)].  The fuel bounds
    the number of lines asked for. *)
Fixpoint copy_lines (fuel : nat) (infile : Infile) (outfile : Outfile)
    : Fm unit :=
  match fuel with
  | O => fun d => mkRan OutOfFuel d []
  | S fuel' =>
      fbind (call (lib_next infile) (ENext infile))
        (fun line =>
           match line with
           | Some s =>
               fbind (call (lib_write outfile s) (EWrite outfile s))
                 (fun _ => copy_lines fuel' infile outfile)
           | None => fret tt
           end)
  end.

(** Lines 98-101: the inner [with]. *)
Definition copy_file (fuel : nat) (name : str) (outfile : Outfile)
    : Fm unit :=
  fbind (call (lib_open_r name) (EOpenR name))
    (fun infile =>
       closing (call (lib_close_r infile) (ECloseR infile))
         (fbind (copy_lines fuel infile outfile)
            (fun _ =>
               call (lib_write outfile two_newlines)
                 (EWrite outfile two_newlines)))).

(** Lines 97-103: the [try].  A [FileNotFoundError] from anywhere in it is
    caught and reported; anything else goes on. *)
Definition try_copy (fuel : nat) (path filename : str) (outfile : Outfile)
    : Fm unit :=
  fun d =>
    let r := copy_file fuel (infile_name path filename) outfile d in
    match ending r with
    | Raises FileNotFoundError =>
        mkRan (Returns tt) (disk r)
          (calls r ++ [EPrint (not_found_message path filename)])
    | _ => r
    end.

(** Lines 96-103: the loop over [file_list]. *)
Fixpoint merge_loop (fuel : nat) (path : str) (file_list : list str)
    (outfile : Outfile) : Fm unit :=
  match file_list with
  | [] => fret tt
  | filename :: rest =>
      fbind (try_copy fuel path filename outfile)
        (fun _ => merge_loop fuel path rest outfile)
  end.

(** Lines 85-103. *)
Definition merge_files (fuel : nat) (path : str) (file_list : list str)
    (output_file : str) : Fm unit :=
  fbind (call (lib_open_w output_file) (EOpenW output_file))
    (fun outfile =>
       closing (call (lib_close_w outfile) (ECloseW outfile))
         (merge_loop fuel path file_list outfile)).

(** *** Reading a trace *)

(** The names given to [open(..., 'r')], in order. *)
Definition opened (tr : list FEvent) : list str :=
  flat_map (fun ev => match ev with EOpenR name _ => [name] | _ => [] end) tr.

(** The strings given to [outfile.write], in order. *)
Definition written (tr : list FEvent) : list str :=
  flat_map (fun ev => match ev with EWrite _ s _ => [s] | _ => [] end) tr.

(** What the reads call for: every line read, and two newlines where a file
    came to its end. *)
Definition echo (tr : list FEvent) : list str :=
  flat_map (fun ev =>
              match ev with
              | ENext _ (inr (Some s)) => [s]
              | ENext _ (inr None) => [two_newlines]
              | _ => []
              end) tr.

Definition error_of {A} (r : Raised OsErr + A) : list (Raised OsErr) :=
  match r with
  | inl e => [e]
  | inr _ => []
  end.

(** The exceptions raised, in order. *)
Definition errors (tr : list FEvent) : list (Raised OsErr) :=
  flat_map (fun ev =>
              match ev with
              | EOpenW _ r => error_of r
              | EOpenR _ r => error_of r
              | ENext _ r => error_of r
              | EWrite _ _ r => error_of r
              | ECloseR _ r => error_of r
              | ECloseW _ r => error_of r
              | EPrint _ => []
              end) tr.

Definition last_error (tr : list FEvent) : option (Raised OsErr) :=
  match rev (errors tr) with
  | e :: _ => Some e
  | [] => None
  end.

(** No call raised, but for [open(..., 'r')] with [FileNotFoundError]. *)
Definition benign (ev : FEvent) : bool :=
  match ev with
  | EOpenR _ (inl FileNotFoundError) => true
  | EOpenW _ (inl _) | EOpenR _ (inl _) | ENext _ (inl _)
  | EWrite _ _ (inl _) | ECloseR _ (inl _) | ECloseW _ (inl _) => false
  | _ => true
  end.

(** The calls that copy the lines [lines] of [infile]. *)
Definition copied (infile : Infile) (outfile : Outfile) (lines : list str)
    : list FEvent :=
  flat_map (fun s => [ENext infile (inr (Some s));
                      EWrite outfile s (inr tt)]) lines.

(** The calls of the loop over [file_list] when every file is either not
    found or copied to its end: a file that is not found is reported and
    nothing else happens for it; a file that is opened is read line by line,
    each line written as it is read, two newlines are written at its end,
    and it is closed. *)
Inductive merged (outfile : Outfile) (path : str)
    : list str -> list FEvent -> Prop :=
| merged_done : merged outfile path [] []
| merged_missing (filename : str) (rest : list str) (tr : list FEvent) :
    merged outfile path rest tr ->
    merged outfile path (filename :: rest)
      (EOpenR (infile_name path filename) (inl FileNotFoundError)
       :: EPrint (not_found_message path filename) :: tr)
| merged_file (filename : str) (rest : list str) (infile : Infile)
    (lines : list str) (tr : list FEvent) :
    merged outfile path rest tr ->
    merged outfile path (filename :: rest)
      (EOpenR (infile_name path filename) (inr infile)
       :: copied infile outfile lines
       ++ [ENext infile (inr None);
           EWrite outfile two_newlines (inr tt);
           ECloseR infile (inr tt)]
       ++ tr).

End Model.

Arguments Returns {F A} a.
Arguments Raises {F A} e.
Arguments OutOfFuel {F A}.
Arguments mkRan {F A} ending disk calls.
Arguments ending {F A} r.
Arguments disk {F A} r.
Arguments calls {F A} r.

(** What leaves the [try] of the loop body: never a [FileNotFoundError],
    and no other exception is held back. *)
Definition not_swallowed {F : FileLib} (r : Ran unit) : Prop :=
  match ending r with
  | Raises e => last_error (calls r) = Some e /\ exists e', e = Other e'
  | _ => forall e', last_error (calls r) <> Some (Other e')
  end.

(** The run was not cut off. *)
Definition finished {F : FileLib} {A} (r : Ran A) : bool :=
  match ending r with
  | OutOfFuel => false
  | _ => true
  end.

End Merge.

(** ** [download_pgns] *)

(** The network and the file system as [download_pgns] uses them.
    [http_get] is [requests.get] with the fixed headers, [raise_for_status]
    and [.text] in one: the text of the answer, or the exception of the first
    two.  [write_file] is [open(path, "w")] and [write]. *)
Class DiskLib : Type := {
  World : Type;
  IoErr : Type;
  http_get : PyStr.str -> World -> World * (IoErr + PyStr.str);
  path_exists : PyStr.str -> World -> bool;
  makedirs : PyStr.str -> World -> World * (IoErr + unit);
  write_file : PyStr.str -> PyStr.str -> World -> World * (IoErr + unit);
  path_join : PyStr.str -> PyStr.str -> PyStr.str
}.

Section Download.
Context {D : DiskLib}.
Import PyStr.

(** One entry per call, named after the statement that makes it. *)
Inductive DEvent : Type :=
| DGetPgn (url : str) (r : IoErr + str)
| DGetTxt (url : str) (r : IoErr + str)
| DMakedirs (dir : str) (r : IoErr + unit)
| DWritePgn (path content : str) (r : IoErr + unit)
| DWriteTxt (path content : str) (r : IoErr + unit).

Definition Io (A : Type) : Type := M IoErr World DEvent A.

Definition io_call {A} (f : World -> World * (IoErr + A))
    (ev : IoErr + A -> DEvent) : Io A :=
  fun w =>
    let (w', r) := f w in
    mkRun match r with
          | inl e => inl (LibError e)
          | inr a => inr a
          end w' [ev r].

(** Lines 20-21. *)
Definition txt_url (username year month : str) : str :=
  py "https://api.chess.com/pub/player/" ++ username ++ py "/games/" ++ year
  ++ py "/" ++ month.

Definition pgn_url (username year month : str) : str :=
  txt_url username year month ++ py "/pgn".

(** Lines 38 and 44. *)
Definition pgn_filename (username year month : str) : str :=
  username ++ py "_" ++ year ++ py "_" ++ month ++ py ".pgn".

Definition txt_filename (username year month : str) : str :=
  username ++ py "_" ++ year ++ py "_" ++ month ++ py ".txt".

(** Lines 25-50: the body of the [try]. *)
Definition month_body (username year month output_dir : str) : Io unit :=
  (pgn_content <- io_call (http_get (pgn_url username year month))
                    (DGetPgn (pgn_url username year month)) ;;
   txt_content <- io_call (http_get (txt_url username year month))
                    (DGetTxt (txt_url username year month)) ;;
   (fun w =>
      if path_exists output_dir w then ret tt w
      else io_call (makedirs output_dir) (DMakedirs output_dir) w) ;;
   io_call
     (write_file (path_join output_dir (pgn_filename username year month))
        pgn_content)
     (DWritePgn (path_join output_dir (pgn_filename username year month))
        pgn_content) ;;
   io_call
     (write_file (path_join output_dir (txt_filename username year month))
        txt_content)
     (DWriteTxt (path_join output_dir (txt_filename username year month))
        txt_content))%py.

(** Lines 24 and 52-55: the two [except] clauses catch every exception of
    the body, print it, and the loop goes on. *)
Definition try_except (body : Io unit) : Io unit :=
  fun w => let r := body w in mkRun (inr tt) (proc r) (trace r).

(** Lines 19-55. *)
Fixpoint months_loop (username year : str) (months : list str)
    (output_dir : str) : Io unit :=
  match months with
  | [] => ret tt
  | month :: rest =>
      (try_except (month_body username year month output_dir) ;;
       months_loop username year rest output_dir)%py
  end.

(** Lines 4-57.  The e-mail address is not used: the header sent is a plain
    string, not an f-string. *)
Definition download_pgns (username email year : str) (months : list str)
    (output_dir : str) : Io str :=
  (months_loop username year months output_dir ;; ret output_dir)%py.

(** Reading a trace. *)
Definition pgn_requests (tr : list DEvent) : list str :=
  flat_map (fun ev => match ev with DGetPgn url _ => [url] | _ => [] end) tr.

Definition is_pgn_ok (ev : DEvent) : bool :=
  match ev with DGetPgn _ (inr _) => true | _ => false end.
Definition is_txt_get (ev : DEvent) : bool :=
  match ev with DGetTxt _ _ => true | _ => false end.
Definition is_txt_ok (ev : DEvent) : bool :=
  match ev with DGetTxt _ (inr _) => true | _ => false end.
Definition is_write_pgn (ev : DEvent) : bool :=
  match ev with DWritePgn _ _ _ => true | _ => false end.
Definition is_write_pgn_ok (ev : DEvent) : bool :=
  match ev with DWritePgn _ _ (inr _) => true | _ => false end.
Definition is_write_txt (ev : DEvent) : bool :=
  match ev with DWriteTxt _ _ _ => true | _ => false end.

Definition count (f : DEvent -> bool) (tr : list DEvent) : nat :=
  length (filter f tr).

End Download.

(** ** Sample data *)

Module Samples.
Import PyStr.

Definition pirc_title : str :=
  py "Pirc Defense: Classical, Quiet System - Chess Openings - Chess.com".

Definition sicilian_title : str :=
  py "Sicilian Defense - Chess Openings - Chess.com".

(** The 21 header values of a game as chess.com exports it. *)
Definition header_values : list str :=
  map py
    ["Live Chess"; "Chess.com"; "2025.03.01"; "-"; "alice"; "bob"; "1-0";
     "8/8/8/8/8/8/8/8 w - -"; "UTC"; "B07";
     "https://www.chess.com/openings/Pirc-Defense"; "2025.03.01";
     "10:00:00"; "1500"; "1490"; "600"; "alice won by resignation";
     "10:00:00"; "2025.03.01"; "10:10:00";
     "https://www.chess.com/game/live/1"]%string.

Definition names : str * str * str :=
  (py "Pirc Defense: Classical, Quiet System", py "Pirc Defense",
   py "Classical, Quiet System").

Definition analysis : list Z * list Z * list Z * list Z * Z :=
  ([], [2], [3], [], 3).

(** The row of that game for the user [alice]. *)
Definition alice_row : list Report.Cell :=
  match
    Report.finish_row (py "alice") (Report.header_cells header_values)
      names analysis (py "85.2") (py "79.15")
  with
  | inr row => row
  | inl _ => []
  end.

(** A directory with two downloads, a hidden file and a subdirectory. *)
Definition listing : list (str * bool) :=
  [(py "alice_2025_03.pgn", true); (py "alice_2025_03.txt", true);
   (py ".txt", true); (py "old.txt", false); (py "notes.md", true);
   (py "alice_2025_04.txt", true)].

(** A disk for [merge_files]: two files that can be read, one that cannot
    be opened, one whose second line cannot be decoded, the others not
    there.  The state is the text written to the output file and the reads
    still to come from the input file that is open; the output file is not
    among the input files. *)
Definition reads_of (name : str) : Merge.Raised unit + list (unit + str) :=
  if eqb name (py "pgn_downloads/a.txt") then
    inr [inr (py "first" ++ [newline]); inr (py "game")]
  else if eqb name (py "pgn_downloads/b.txt") then
    inr [inr (py "second" ++ [newline])]
  else if eqb name (py "pgn_downloads/locked.txt") then
    inl (Merge.Other tt)
  else if eqb name (py "pgn_downloads/broken.txt") then
    inr [inr (py "third" ++ [newline]); inl tt]
  else inl Merge.FileNotFoundError.

Definition disk_lib : Merge.FileLib := {|
  Merge.Disk := str * list (unit + str);
  Merge.OsErr := unit;
  Merge.Infile := unit;
  Merge.Outfile := unit;
  Merge.lib_open_w := fun _ d => (([], snd d), inr tt);
  Merge.lib_open_r := fun name d =>
    match reads_of name with
    | inl e => (d, inl e)
    | inr reads => ((fst d, reads), inr tt)
    end;
  Merge.lib_next := fun _ d =>
    match snd d with
    | [] => (d, inr None)
    | inr line :: reads => ((fst d, reads), inr (Some line))
    | inl e :: reads => ((fst d, reads), inl (Merge.Other e))
    end;
  Merge.lib_write := fun _ s d => ((fst d ++ s, snd d), inr tt);
  Merge.lib_close_r := fun _ d => ((fst d, []), inr tt);
  Merge.lib_close_w := fun _ d => (d, inr tt)
|}.

(** [merge_files] on that disk, with fuel for ten lines a file. *)
Definition merge (file_list : list str) :=
  @Merge.merge_files disk_lib 10 (py "pgn_downloads") file_list
    (py "pgn_downloads/combined_txt_file.txt") (py "old text", []).

(** A web on which every opening page has the title of the Pirc Defense,
    except the page at the address [gone], which cannot be fetched. *)
Definition web_lib : TitleLib := {|
  Web := unit;
  WebErr := unit;
  lib_title := fun url w =>
    if eqb url (py "gone") then (w, inl tt) else (w, inr pirc_title)
|}.

(** One record of the [.txt] file. *)
Definition record : str :=
  Games.pgn_key ++ py "1. e4 e5 2. Nf3 Nc6 3. Bc4, "
  ++ Accuracy.accuracies_key ++ py "85.2" ++ comma :: Accuracy.black_key
  ++ py "79.15" ++ rbrace :: py ", " ++ Games.eco_key.

Definition played : @GameRecord (Scripted.lib Scripted.any_move) :=
  mkRecord header_values (Scripted.game_of Scripted.five_plies).

Definition aborted : @GameRecord (Scripted.lib Scripted.any_move) :=
  mkRecord header_values (Scripted.game_of []).

(** The batch on the scripted engine and [web_lib]. *)
Definition parse (txt : str)
    (games : list (@GameRecord (Scripted.lib Scripted.any_move)))
    (script : list Scripted.Reply) :=
  @parse_games (Scripted.lib Scripted.any_move) web_lib (py "alice")
    Scripted.stockfish txt games script tt.

(** The first turn of the loop on a file with the one game [played]. *)
Definition first_game :=
  @process_game (Scripted.lib Scripted.any_move) web_lib (py "alice")
    Scripted.stockfish [record]
    (@start (Scripted.lib Scripted.any_move) web_lib Scripted.scenario tt)
    played.

End Samples.

(** * Proofs *)

(** ** The move number *)

Lemma move_num_of_div (n : Z) : move_num_of n = (n + 1) / 2.
Proof.
  unfold move_num_of, Qceiling, Qfloor. cbn.
  rewrite Z.mul_1_r.
  pose proof (Z.div_mod (- n) 2 ltac:(lia)) as Hn.
  pose proof (Z.mod_pos_bound (- n) 2 ltac:(lia)) as Hb.
  pose proof (Z.div_mod (n + 1) 2 ltac:(lia)) as Hm.
  pose proof (Z.mod_pos_bound (n + 1) 2 ltac:(lia)) as Hc.
  lia.
Qed.

Lemma move_num_of_mono (a b : Z) : a <= b -> move_num_of a <= move_num_of b.
Proof.
  intros Hab. rewrite !move_num_of_div.
  apply Z.div_le_mono; lia.
Qed.

Lemma move_num_of_pos (n : Z) : 1 <= n -> 1 <= move_num_of n.
Proof.
  intros Hn. rewrite move_num_of_div.
  apply Z.div_le_lower_bound; lia.
Qed.

Section LoopFacts.
Context {L : ChessLib}.

(** ** The loop, one iteration unfolded *)

Lemma for_each_cons (m : Move) (rest : list Move) (st : Board * Locals)
    (p : Proc) :
  for_each (m :: rest) st p =
  match lib_push (fst st) m with
  | inl e => mkRun (inl (LibError e)) p [EPush m (inl e)]
  | inr b =>
      match lib_analyse b 18 p with
      | (p', inl e) =>
          mkRun (inl (LibError e)) p' [EPush m (inr b); EAnalyse b 18 (inl e)]
      | (p', inr info) =>
          let r := for_each rest (b, classify_body (snd st) info) p' in
          mkRun (outcome r) (proc r)
            (EPush m (inr b) :: EAnalyse b 18 (inr info) :: trace r)
      end
  end.
Proof.
  cbn [for_each]. unfold bind at 1.
  unfold loop_body, bind, push, analyse, invoke.
  cbn. destruct (lib_push (fst st) m) as [e | b]; cbn; [reflexivity |].
  destruct (lib_analyse b 18 p) as [p' [e | info]]; cbn; reflexivity.
Qed.

Lemma analyze_game_unfold (game : Game L) (path : string) (p : Proc) :
  analyze_game game path p =
  match lib_popen_uci path p with
  | (p1, inl e) => mkRun (inl (LibError e)) p1 [EPopen path (inl e)]
  | (p1, inr u1) =>
      match lib_configure 10 p1 with
      | (p2, inl e) =>
          mkRun (inl (LibError e)) p2
            [EPopen path (inr u1); EConfigure 10 (inl e)]
      | (p2, inr u2) =>
          let fe :=
            for_each (mainline_moves game) (game_board game, init_locals) p2 in
          match outcome fe with
          | inl e =>
              mkRun (inl e) (proc fe)
                (EPopen path (inr u1) :: EConfigure 10 (inr u2) :: trace fe)
          | inr st =>
              match lib_quit (proc fe) with
              | (p3, inl e) =>
                  mkRun (inl (LibError e)) p3
                    (EPopen path (inr u1) :: EConfigure 10 (inr u2)
                     :: trace fe ++ [EQuit (inl e)])
              | (p3, inr u3) =>
                  mkRun
                    match move_num (snd st) with
                    | Some n =>
                        inr (white_mistakes (snd st), white_blunders (snd st),
                             black_mistakes (snd st), black_blunders (snd st),
                             n)
                    | None => inl (UnboundLocalError "move_num")
                    end
                    p3
                    (EPopen path (inr u1) :: EConfigure 10 (inr u2)
                     :: trace fe ++ [EQuit (inr u3)])
              end
          end
      end
  end.
Proof.
  unfold analyze_game, bind, popen_uci, configure, quit, invoke, result_of.
  destruct (lib_popen_uci path p) as [p1 [e | u1]]; cbn; [reflexivity |].
  destruct (lib_configure 10 p1) as [p2 [e | u2]]; cbn; [reflexivity |].
  destruct (outcome (for_each _ _ p2)) as [e | st]; cbn; [reflexivity |].
  destruct (lib_quit _) as [p3 [e | u3]]; cbn; [reflexivity |].
  destruct (move_num (snd st)); cbn; rewrite ?app_nil_r; reflexivity.
Qed.

(** ** Traces of the loop *)

Lemma infos_of_app (a b : list (Event L)) :
  infos_of (a ++ b) = infos_of a ++ infos_of b.
Proof.
  induction a as [| ev a IH]; [reflexivity |].
  destruct ev as [? ? | ? ? | ? ? | ? ? [e | i] | ?]; cbn; rewrite ?IH;
    reflexivity.
Qed.

Lemma pushed_moves_app (a b : list (Event L)) :
  pushed_moves (a ++ b) = pushed_moves a ++ pushed_moves b.
Proof.
  induction a as [| ev a IH]; [reflexivity |].
  destruct ev; cbn; rewrite ?IH; reflexivity.
Qed.

Lemma quits_app (a b : list (Event L)) :
  quits (a ++ b) = (quits a + quits b)%nat.
Proof.
  unfold quits. rewrite filter_app, length_app. reflexivity.
Qed.

Lemma for_each_disciplined (moves : list Move) :
  forall st p, disciplined (for_each moves st p).
Proof.
  induction moves as [| m rest IH]; intros st p.
  - cbn. constructor.
  - rewrite for_each_cons.
    destruct (lib_push (fst st) m) as [e | b].
    + exists [], (EPush m (inl e)). repeat split. constructor.
    + destruct (lib_analyse b 18 p) as [p' [e | info]].
      * exists [EPush m (inr b)], (EAnalyse b 18 (inl e)).
        repeat split. repeat constructor.
      * specialize (IH (b, classify_body (snd st) info) p').
        unfold disciplined in *. cbn.
        destruct (outcome (for_each rest _ p')) as [[name | e] | st'].
        -- repeat constructor. exact IH.
        -- destruct IH as (tr & ev & Htr & Hclean & Hev).
           exists (EPush m (inr b) :: EAnalyse b 18 (inr info) :: tr), ev.
           rewrite Htr. repeat split; [| exact Hev].
           repeat constructor. exact Hclean.
        -- repeat constructor. exact IH.
Qed.

Lemma for_each_no_quit (moves : list Move) :
  forall st p,
    Forall (fun ev => is_quit ev = false) (trace (for_each moves st p)).
Proof.
  induction moves as [| m rest IH]; intros st p.
  - constructor.
  - rewrite for_each_cons.
    destruct (lib_push (fst st) m) as [e | b]; [repeat constructor |].
    destruct (lib_analyse b 18 p) as [p' [e | info]]; [repeat constructor |].
    cbn. repeat constructor. apply IH.
Qed.

Lemma no_quit_quits (tr : list (Event L)) :
  Forall (fun ev => is_quit ev = false) tr -> quits tr = 0%nat.
Proof.
  unfold quits. induction 1 as [| ev tr Hev _ IH]; [reflexivity |].
  cbn. rewrite Hev. exact IH.
Qed.

Lemma for_each_raises_lib (moves : list Move) :
  forall st p e,
    outcome (for_each moves st p) = inl e -> exists err, e = LibError err.
Proof.
  induction moves as [| m rest IH]; intros st p e.
  - cbn. discriminate.
  - rewrite for_each_cons.
    destruct (lib_push (fst st) m) as [e' | b].
    + cbn. intros [= <-]. eauto.
    + destruct (lib_analyse b 18 p) as [p' [e' | info]]; cbn.
      * intros [= <-]. eauto.
      * apply IH.
Qed.

Lemma for_each_returns (moves : list Move) :
  forall st p st',
    outcome (for_each moves st p) = inr st' ->
    let tr := trace (for_each moves st p) in
    snd st' = fold_left classify_body (infos_of tr) (snd st)
    /\ length (infos_of tr) = length moves
    /\ pushed_moves tr = moves
    /\ clean tr.
Proof.
  induction moves as [| m rest IH]; intros st p st'.
  - cbn. intros [= <-]. repeat split. constructor.
  - rewrite for_each_cons.
    destruct (lib_push (fst st) m) as [e | b]; [discriminate |].
    destruct (lib_analyse b 18 p) as [p' [e | info]]; [discriminate |].
    cbn. intros Hout.
    destruct (IH _ _ _ Hout) as (Hl & Hlen & Hpush & Hclean).
    repeat split.
    + exact Hl.
    + now rewrite Hlen.
    + now rewrite Hpush.
    + repeat constructor. exact Hclean.
Qed.

Lemma for_each_pushed_prefix (moves : list Move) :
  forall st p,
    exists post, moves = pushed_moves (trace (for_each moves st p)) ++ post.
Proof.
  induction moves as [| m rest IH]; intros st p.
  - exists []. reflexivity.
  - rewrite for_each_cons.
    destruct (lib_push (fst st) m) as [e | b]; [exists rest; reflexivity |].
    destruct (lib_analyse b 18 p) as [p' [e | info]];
      [exists rest; reflexivity |].
    destruct (IH (b, classify_body (snd st) info) p') as [post Hpost].
    exists post. cbn. now rewrite <- Hpost.
Qed.

(** ** The classifier and the locals *)

Lemma classify_reads (old_score s : Z) :
  match classify old_score s with
  | BlackBlunder => 300 <= s - old_score
  | BlackMistake => 100 <= s - old_score < 300
  | WhiteBlunder => s - old_score <= -300
  | WhiteMistake => -300 < s - old_score <= -100
  | NoEvent => -100 < s - old_score < 100
  end.
Proof.
  unfold classify, blunder, mistake.
  destruct (Z.geb_spec (s - old_score) 300); [lia |].
  destruct (Z.geb_spec (s - old_score) 100); [lia |].
  destruct (Z.leb_spec (s - old_score) (0 - 300)); [lia |].
  destruct (Z.leb_spec (s - old_score) (0 - 100)); lia.
Qed.

(** An outcome is the classification as soon as its range holds the delta. *)
Ltac classified :=
  match goal with
  | |- classify ?a ?b = _ =>
      let H := fresh "H" in
      pose proof (classify_reads a b) as H;
      destruct (classify a b); solve [reflexivity | exfalso; lia]
  end.

Lemma classify_same (s : Z) : classify s s = NoEvent.
Proof.
  classified.
Qed.

Lemma first_classify_body (info : Info) :
  classify_body init_locals info =
  mkLocals 2 [] [] [] [] (Some (white_score info 1000)) (Some 1).
Proof.
  unfold classify_body, old_score_of. cbn [score init_locals].
  rewrite classify_same. reflexivity.
Qed.

Lemma classify_body_counters (l : Locals) (info : Info) :
  combined_move_num (classify_body l info) = combined_move_num l + 1
  /\ score (classify_body l info) = Some (white_score info 1000)
  /\ move_num (classify_body l info)
     = Some (move_num_of (combined_move_num l)).
Proof.
  unfold classify_body.
  destruct (classify _ _); cbn; repeat split.
Qed.

Lemma classify_body_appended (l : Locals) (info : Info) :
  appended_at_most (move_num_of (combined_move_num l)) l (classify_body l info).
Proof.
  unfold classify_body, appended_at_most, events_total.
  destruct (classify _ _); cbn; rewrite ?length_app; cbn;
    repeat split; auto; lia.
Qed.

Lemma classify_body_unbound (l : Locals) (info : Info) :
  score l = None ->
  white_mistakes (classify_body l info) = white_mistakes l
  /\ white_blunders (classify_body l info) = white_blunders l
  /\ black_mistakes (classify_body l info) = black_mistakes l
  /\ black_blunders (classify_body l info) = black_blunders l.
Proof.
  intros Hs. unfold classify_body, old_score_of. rewrite Hs.
  rewrite classify_same. cbn. repeat split.
Qed.

Lemma plies_invariant_init : plies_invariant 0 init_locals.
Proof.
  unfold plies_invariant. cbn. repeat split; try lia; try easy.
Qed.

Lemma plies_invariant_step (k : nat) (l : Locals) (info : Info) :
  plies_invariant k l -> plies_invariant (S k) (classify_body l info).
Proof.
  intros (Hc & H0 & Hpos & Htot & Hall).
  destruct (classify_body_counters l info) as (Hc' & Hs' & Hm').
  assert (Hk : combined_move_num l = Z.of_nat (S k)) by lia.
  unfold plies_invariant. split; [lia |]. split; [discriminate |].
  split; [intros _; split; [congruence | now rewrite Hm', Hk] |].
  destruct k as [| k].
  - destruct (H0 eq_refl) as [Hs _].
    destruct (classify_body_unbound l info Hs) as (E1 & E2 & E3 & E4).
    unfold events_total, all_events in *. rewrite E1, E2, E3, E4.
    split; [lia |].
    destruct (white_mistakes l), (white_blunders l), (black_mistakes l),
      (black_blunders l); cbn in Htot; try lia. constructor.
  - pose proof (classify_body_appended l info) as (A1 & A2 & A3 & A4 & A5).
    rewrite Hk in A1, A2, A3, A4.
    split; [lia |].
    assert (Hold : Forall (fun n => 1 <= n <= move_num_of (Z.of_nat (S (S k))))
                     (all_events l)).
    { eapply Forall_impl; [| exact Hall]. cbn beta. intros n Hn.
      pose proof (move_num_of_mono (Z.of_nat (S k)) (Z.of_nat (S (S k)))).
      lia. }
    unfold all_events in *.
    rewrite !Forall_app in Hold. destruct Hold as (F1 & F2 & F3 & F4).
    rewrite !Forall_app.
    assert (Hone : Forall (fun n => 1 <= n <= move_num_of (Z.of_nat (S (S k))))
                     [move_num_of (Z.of_nat (S (S k)))]).
    { constructor; [| constructor].
      pose proof (move_num_of_pos (Z.of_nat (S (S k)))). lia. }
    split; [| split; [| split]].
    + destruct A1 as [-> | ->]; [| rewrite Forall_app]; auto.
    + destruct A2 as [-> | ->]; [| rewrite Forall_app]; auto.
    + destruct A3 as [-> | ->]; [| rewrite Forall_app]; auto.
    + destruct A4 as [-> | ->]; [| rewrite Forall_app]; auto.
Qed.

Lemma plies_invariant_fold (infos : list Info) :
  forall k l,
    plies_invariant k l ->
    plies_invariant (k + length infos) (fold_left classify_body infos l).
Proof.
  induction infos as [| info infos IH]; intros k l Hinv; cbn [fold_left length].
  - now rewrite Nat.add_0_r.
  - replace (k + S (length infos))%nat with (S k + length infos)%nat by lia.
    apply IH, plies_invariant_step, Hinv.
Qed.

Lemma plies_invariant_annotate (infos : list Info) :
  plies_invariant (length infos) (annotate infos).
Proof.
  apply (plies_invariant_fold infos 0 init_locals plies_invariant_init).
Qed.

(** ** Whole runs of [analyze_game] *)

Lemma clean_loop_completed (tr : list (Event L)) :
  clean tr -> loop_completed tr = true.
Proof.
  unfold loop_completed, succeeded.
  induction 1 as [| ev tr Hev _ IH]; [reflexivity |].
  cbn. now rewrite Hev, IH.
Qed.

Lemma loop_completed_cons (ev : Event L) (tr : list (Event L)) :
  succeeded ev = true -> loop_completed (ev :: tr) = loop_completed tr.
Proof.
  intros Hev. unfold loop_completed. cbn. now rewrite Hev.
Qed.

Lemma failure_is_final {A} (r : Run Err Proc (Event L) A) (ev : Event L)
    (e : Err) :
  disciplined r -> In ev (trace r) -> failure_of ev = Some e ->
  outcome r = inl (LibError e)
  /\ exists tr, trace r = tr ++ [ev] /\ clean tr.
Proof.
  unfold disciplined, clean. intros Hd Hin Hev.
  assert (Hnot : forall tr, Forall (fun ev => failure_of ev = None) tr ->
                   ~ In ev tr).
  { intros tr Hc Hi. rewrite Forall_forall in Hc.
    specialize (Hc ev Hi). congruence. }
  destruct (outcome r) as [[name | e'] | a].
  - destruct (Hnot _ Hd Hin).
  - destruct Hd as (tr & ev' & Htr & Hclean & Hev').
    rewrite Htr in Hin. apply in_app_or in Hin.
    destruct Hin as [Hin | [<- | []]]; [destruct (Hnot _ Hclean Hin) |].
    split; [congruence | eauto].
  - destruct (Hnot _ Hd Hin).
Qed.

Lemma analyze_game_disciplined (game : Game L) (path : string) (p : Proc) :
  disciplined (analyze_game game path p).
Proof.
  rewrite analyze_game_unfold.
  destruct (lib_popen_uci path p) as [p1 [e | u1]].
  { exists [], (EPopen path (inl e)). repeat split. constructor. }
  destruct (lib_configure 10 p1) as [p2 [e | u2]].
  { exists [EPopen path (inr u1)], (EConfigure 10 (inl e)).
    repeat split. repeat constructor. }
  cbv zeta.
  pose proof (for_each_disciplined (mainline_moves game)
                (game_board game, init_locals) p2) as Hd.
  unfold disciplined in Hd.
  destruct (outcome (for_each _ _ p2)) as [[name | e] | st].
  - unfold disciplined. cbn. repeat constructor. exact Hd.
  - destruct Hd as (tr & ev & Htr & Hclean & Hev).
    exists (EPopen path (inr u1) :: EConfigure 10 (inr u2) :: tr), ev.
    cbn. rewrite Htr. repeat split; [| exact Hev].
    repeat constructor. exact Hclean.
  - destruct (lib_quit _) as [p3 [e | u3]].
    + exists (EPopen path (inr u1) :: EConfigure 10 (inr u2)
              :: trace (for_each (mainline_moves game)
                          (game_board game, init_locals) p2)),
        (EQuit (inl e)).
      repeat split. repeat constructor. exact Hd.
    + assert (Hall : clean (EPopen path (inr u1) :: EConfigure 10 (inr u2)
                :: trace (for_each (mainline_moves game)
                            (game_board game, init_locals) p2)
                   ++ [EQuit (inr u3)])).
      { repeat constructor. apply Forall_app. split; [exact Hd |].
        repeat constructor. }
      unfold disciplined. cbn. destruct (move_num (snd st)); exact Hall.
Qed.

Lemma analyze_game_returns (game : Game L) (path : string) (p : Proc)
    (res : list Z * list Z * list Z * list Z * Z) :
  outcome (analyze_game game path p) = inr res ->
  let tr := trace (analyze_game game path p) in
  let l := annotate (infos_of tr) in
  length (infos_of tr) = length (mainline_moves game)
  /\ pushed_moves tr = mainline_moves game
  /\ clean tr
  /\ quits tr = 1%nat
  /\ exists n,
       move_num l = Some n
       /\ res = (white_mistakes l, white_blunders l,
                 black_mistakes l, black_blunders l, n).
Proof.
  pose proof (analyze_game_disciplined game path p) as Hd.
  rewrite analyze_game_unfold in *.
  destruct (lib_popen_uci path p) as [p1 [e | u1]]; [discriminate |].
  destruct (lib_configure 10 p1) as [p2 [e | u2]]; [discriminate |].
  cbv zeta in *.
  pose proof (for_each_returns (mainline_moves game)
                (game_board game, init_locals) p2) as Hret.
  pose proof (for_each_no_quit (mainline_moves game)
                (game_board game, init_locals) p2) as Hnq.
  destruct (outcome (for_each _ _ p2)) as [e | st]; [discriminate |].
  destruct (Hret st eq_refl) as (Hl & Hlen & Hpush & Hclean).
  destruct (lib_quit _) as [p3 [e | u3]]; [discriminate |].
  cbn [outcome trace]. intros Hres.
  cbn [infos_of pushed_moves]. rewrite infos_of_app, pushed_moves_app.
  cbn [infos_of pushed_moves]. rewrite !app_nil_r.
  repeat split; try assumption.
  - unfold disciplined in Hd. cbn [outcome trace] in Hd.
    rewrite Hres in Hd. exact Hd.
  - change (quits (?a :: ?b :: ?t)) with (quits t).
    rewrite quits_app, (no_quit_quits _ Hnq). reflexivity.
  - unfold annotate. cbn [snd] in Hl. rewrite <- Hl.
    destruct (move_num (snd st)) as [n |]; [| discriminate].
    exists n. split; [reflexivity | congruence].
Qed.

Lemma analyze_game_pushed_prefix (game : Game L) (path : string) (p : Proc) :
  exists post,
    mainline_moves game
    = pushed_moves (trace (analyze_game game path p)) ++ post.
Proof.
  rewrite analyze_game_unfold.
  destruct (lib_popen_uci path p) as [p1 [e | u1]]; [cbn; eauto |].
  destruct (lib_configure 10 p1) as [p2 [e | u2]]; [cbn; eauto |].
  cbv zeta.
  destruct (for_each_pushed_prefix (mainline_moves game)
              (game_board game, init_locals) p2) as [post Hpost].
  destruct (outcome (for_each _ _ p2)) as [e | st]; [cbn; eauto |].
  destruct (lib_quit _) as [p3 [e | u3]]; cbn [trace pushed_moves];
    rewrite pushed_moves_app, app_nil_r; eauto.
Qed.

Lemma analyze_game_quits (game : Game L) (path : string) (p : Proc) :
  quits (trace (analyze_game game path p))
  = if loop_completed (trace (analyze_game game path p)) then 1%nat else 0%nat.
Proof.
  rewrite analyze_game_unfold.
  destruct (lib_popen_uci path p) as [p1 [e | u1]]; [reflexivity |].
  destruct (lib_configure 10 p1) as [p2 [e | u2]]; [reflexivity |].
  cbv zeta.
  pose proof (for_each_disciplined (mainline_moves game)
                (game_board game, init_locals) p2) as Hd.
  pose proof (for_each_no_quit (mainline_moves game)
                (game_board game, init_locals) p2) as Hnq.
  pose proof (for_each_raises_lib (mainline_moves game)
                (game_board game, init_locals) p2) as Hlib.
  unfold disciplined in Hd.
  destruct (outcome (for_each _ _ p2)) as [e | st].
  - destruct (Hlib e eq_refl) as [err ->].
    destruct Hd as (tr & ev & Htr & Hclean & Hev).
    cbn [trace].
    change (quits (?a :: ?b :: ?t)) with (quits t).
    rewrite (no_quit_quits _ Hnq).
    rewrite !loop_completed_cons by reflexivity.
    unfold loop_completed. rewrite Htr, forallb_app. cbn [forallb].
    rewrite Htr, Forall_app in Hnq. destruct Hnq as [_ Hq].
    inversion Hq as [| ? ? Hq' _]; subst.
    unfold succeeded. rewrite Hev, Hq'. cbn.
    now rewrite !andb_false_r.
  - assert (Hq : forall r,
        quits (trace (for_each (mainline_moves game)
                        (game_board game, init_locals) p2) ++ [EQuit r])
        = 1%nat).
    { intros r. rewrite quits_app, (no_quit_quits _ Hnq). reflexivity. }
    assert (Hc : forall r,
        loop_completed
          (trace (for_each (mainline_moves game)
                    (game_board game, init_locals) p2) ++ [EQuit r])
        = true).
    { intros r. unfold loop_completed. rewrite forallb_app.
      fold (loop_completed (trace (for_each (mainline_moves game)
                    (game_board game, init_locals) p2))).
      rewrite (clean_loop_completed _ Hd). cbn. now rewrite orb_true_r. }
    destruct (lib_quit _) as [p3 [e | u3]]; cbn [trace];
      change (quits (?a :: ?b :: ?t)) with (quits t);
      rewrite !loop_completed_cons by reflexivity;
      now rewrite Hq, Hc.
Qed.

Lemma loop_body_returns (st st' : Board * Locals) (move : Move) (p : Proc) :
  outcome (loop_body st move p) = inr st' ->
  exists info, snd st' = classify_body (snd st) info.
Proof.
  unfold loop_body, bind, push, analyse, invoke, ret. cbn.
  destruct (lib_push (fst st) move) as [e | b]; cbn; [discriminate |].
  destruct (lib_analyse b 18 p) as [p' [e | info]]; cbn; [discriminate |].
  intros [= <-]. exists info. reflexivity.
Qed.

Lemma failed_call_is_last (game : Game L) (path : string) (p : Proc)
    (ev : Event L) (e : Err) :
  In ev (trace (analyze_game game path p)) ->
  failure_of ev = Some e ->
  outcome (analyze_game game path p) = inl (LibError e)
  /\ (exists tr, trace (analyze_game game path p) = tr ++ [ev] /\ clean tr)
  /\ (is_quit ev = false ->
      quits (trace (analyze_game game path p)) = 0%nat).
Proof.
  intros Hin Hev.
  destruct (failure_is_final _ ev e (analyze_game_disciplined game path p)
              Hin Hev) as [Hout Htr].
  repeat split; try assumption.
  intros Hq. rewrite analyze_game_quits.
  assert (Hnot : loop_completed (trace (analyze_game game path p)) = false).
  { apply not_true_is_false. unfold loop_completed. intros Hall.
    rewrite forallb_forall in Hall. specialize (Hall ev Hin).
    unfold succeeded in Hall. rewrite Hev, Hq in Hall. discriminate. }
  now rewrite Hnot.
Qed.

(** When no call raised, the run did not end in a library exception. *)
Lemma all_succeeded_no_lib_error {A} (r : Run Err Proc (Event L) A) (e : Err) :
  disciplined r ->
  forallb succeeded (trace r) = true ->
  outcome r <> inl (LibError e).
Proof.
  unfold disciplined. intros Hd Hall Hout. rewrite Hout in Hd.
  destruct Hd as (tr & ev & Htr & _ & Hev).
  rewrite Htr, forallb_app in Hall. cbn in Hall.
  unfold succeeded in Hall at 2. rewrite Hev in Hall.
  rewrite andb_false_r in Hall. discriminate.
Qed.

(** A game with at least one ply on which no library call raises is analysed
    to the end. *)
Lemma analyze_game_completes (game : Game L) (path : string) (p : Proc) :
  mainline_moves game <> [] ->
  forallb succeeded (trace (analyze_game game path p)) = true ->
  exists res, outcome (analyze_game game path p) = inr res.
Proof.
  intros Hne. rewrite analyze_game_unfold.
  destruct (lib_popen_uci path p) as [p1 [e | u1]]; [discriminate |].
  destruct (lib_configure 10 p1) as [p2 [e | u2]]; [discriminate |].
  cbv zeta.
  pose proof (for_each_disciplined (mainline_moves game)
                (game_board game, init_locals) p2) as Hd.
  pose proof (for_each_returns (mainline_moves game)
                (game_board game, init_locals) p2) as Hret.
  pose proof (for_each_raises_lib (mainline_moves game)
                (game_board game, init_locals) p2) as Hlib.
  destruct (outcome (for_each _ _ p2)) as [e | st] eqn:Hfe.
  - destruct (Hlib e eq_refl) as [err ->]. cbn. intros Hall.
    destruct (all_succeeded_no_lib_error _ err Hd Hall Hfe).
  - destruct (Hret st eq_refl) as (Hl & Hlen & _ & _).
    destruct (lib_quit _) as [p3 [e | u3]]; cbn [trace outcome].
    + cbn [forallb succeeded failure_of reply_error andb].
      rewrite forallb_app. cbn. rewrite andb_false_r. discriminate.
    + intros _.
      pose proof (plies_invariant_annotate
                    (infos_of (trace (for_each (mainline_moves game)
                                        (game_board game, init_locals) p2))))
        as (_ & _ & Hpos & _).
      unfold annotate in Hpos. cbn [snd] in Hl. rewrite <- Hl, Hlen in Hpos.
      destruct Hpos as [_ Hm].
      { destruct (mainline_moves game); [congruence | discriminate]. }
      rewrite Hm. eauto.
Qed.

Lemma no_moves_no_infos (game : Game L) (path : string) (p : Proc) :
  mainline_moves game = [] ->
  infos_of (trace (analyze_game game path p)) = [].
Proof.
  intros Hmoves. rewrite analyze_game_unfold, Hmoves. cbn [for_each].
  destruct (lib_popen_uci path p) as [p1 [e | u1]]; [reflexivity |].
  destruct (lib_configure 10 p1) as [p2 [e | u2]]; [reflexivity |].
  cbn. destruct (lib_quit p2) as [p3 [e | u3]]; reflexivity.
Qed.

(** One iteration on locals whose [score] is bound, the evaluation known. *)
Lemma classify_body_bound (l l' : Locals) (info : Info) (prev s : Z) :
  score l = Some prev ->
  white_score info 1000 = s ->
  (let n := move_num_of (combined_move_num l) in
   let l2 :=
     record_event (classify prev s) n
       (mkLocals (combined_move_num l) (black_mistakes l) (black_blunders l)
          (white_mistakes l) (white_blunders l) (Some s) (Some n)) in
   mkLocals (combined_move_num l2 + 1) (black_mistakes l2) (black_blunders l2)
     (white_mistakes l2) (white_blunders l2) (score l2) (move_num l2)) = l' ->
  classify_body l info = l'.
Proof.
  intros Hprev Hs <-. unfold classify_body, old_score_of.
  now rewrite Hprev, Hs.
Qed.

(** What the loop body does to the four lists on locals whose [score] is
    bound: the move number goes to the list of the outcome, and to no
    other. *)
Lemma classify_body_lists (l : Locals) (info : Info) (prev : Z) :
  score l = Some prev ->
  let n := move_num_of (combined_move_num l) in
  let l' := classify_body l info in
  match classify prev (white_score info 1000) with
  | BlackBlunder =>
      black_blunders l' = black_blunders l ++ [n]
      /\ black_mistakes l' = black_mistakes l
      /\ white_blunders l' = white_blunders l
      /\ white_mistakes l' = white_mistakes l
  | BlackMistake =>
      black_blunders l' = black_blunders l
      /\ black_mistakes l' = black_mistakes l ++ [n]
      /\ white_blunders l' = white_blunders l
      /\ white_mistakes l' = white_mistakes l
  | WhiteBlunder =>
      black_blunders l' = black_blunders l
      /\ black_mistakes l' = black_mistakes l
      /\ white_blunders l' = white_blunders l ++ [n]
      /\ white_mistakes l' = white_mistakes l
  | WhiteMistake =>
      black_blunders l' = black_blunders l
      /\ black_mistakes l' = black_mistakes l
      /\ white_blunders l' = white_blunders l
      /\ white_mistakes l' = white_mistakes l ++ [n]
  | NoEvent =>
      black_blunders l' = black_blunders l
      /\ black_mistakes l' = black_mistakes l
      /\ white_blunders l' = white_blunders l
      /\ white_mistakes l' = white_mistakes l
  end.
Proof.
  intros Hprev. cbv zeta. unfold classify_body, old_score_of. rewrite Hprev.
  destruct (classify prev (white_score info 1000)); cbn; repeat split.
Qed.




(** ** The claims *)

(** C1. With [delta = current_eval - previous_eval] and the thresholds 100
    and 300 of the source, the chain of tests gives exactly one of five
    outcomes, the earlier test winning: a Black blunder iff [delta >= 300];
    otherwise a Black mistake iff [delta >= 100]; otherwise a White blunder
    iff [delta <= -300]; otherwise a White mistake iff [delta <= -100];
    otherwise no event.  A delta of 300 is a blunder, of 100 a mistake, of 99
    nothing.  The outcome decides which list the iteration appends to: in an
    iteration of the loop that finds [previous_eval] in [score] and leaves
    [current_eval] there, the move number of the ply is appended to
    [black_blunders], [black_mistakes], [white_blunders] or [white_mistakes]
    according to the range of the delta, the other three lists stay as they
    were, and without an event all four do. *)
Theorem classify_priority (previous_eval current_eval : Z) :
  let delta := current_eval - previous_eval in
  (classify previous_eval current_eval = BlackBlunder <-> delta >= 300)
  /\ (classify previous_eval current_eval = BlackMistake
      <-> delta < 300 /\ delta >= 100)
  /\ (classify previous_eval current_eval = WhiteBlunder
      <-> delta < 100 /\ delta <= -300)
  /\ (classify previous_eval current_eval = WhiteMistake
      <-> delta < 100 /\ delta > -300 /\ delta <= -100)
  /\ (classify previous_eval current_eval = NoEvent
      <-> delta < 100 /\ delta > -100)
  /\ mistake = 100 /\ blunder = 300
  /\ classify previous_eval (previous_eval + 300) = BlackBlunder
  /\ classify previous_eval (previous_eval + 100) = BlackMistake
  /\ classify previous_eval (previous_eval + 99) = NoEvent
  /\ (forall (st st' : Board * Locals) (move : Move) (p : Proc),
        score (snd st) = Some previous_eval ->
        outcome (loop_body st move p) = inr st' ->
        score (snd st') = Some current_eval ->
        let n := move_num_of (combined_move_num (snd st)) in
        (delta >= 300 ->
         black_blunders (snd st') = black_blunders (snd st) ++ [n]
         /\ black_mistakes (snd st') = black_mistakes (snd st)
         /\ white_blunders (snd st') = white_blunders (snd st)
         /\ white_mistakes (snd st') = white_mistakes (snd st))
        /\ (delta < 300 -> delta >= 100 ->
            black_blunders (snd st') = black_blunders (snd st)
            /\ black_mistakes (snd st') = black_mistakes (snd st) ++ [n]
            /\ white_blunders (snd st') = white_blunders (snd st)
            /\ white_mistakes (snd st') = white_mistakes (snd st))
        /\ (delta <= -300 ->
            black_blunders (snd st') = black_blunders (snd st)
            /\ black_mistakes (snd st') = black_mistakes (snd st)
            /\ white_blunders (snd st') = white_blunders (snd st) ++ [n]
            /\ white_mistakes (snd st') = white_mistakes (snd st))
        /\ (delta > -300 -> delta <= -100 ->
            black_blunders (snd st') = black_blunders (snd st)
            /\ black_mistakes (snd st') = black_mistakes (snd st)
            /\ white_blunders (snd st') = white_blunders (snd st)
            /\ white_mistakes (snd st') = white_mistakes (snd st) ++ [n])
        /\ (delta > -100 -> delta < 100 ->
            black_blunders (snd st') = black_blunders (snd st)
            /\ black_mistakes (snd st') = black_mistakes (snd st)
            /\ white_blunders (snd st') = white_blunders (snd st)
            /\ white_mistakes (snd st') = white_mistakes (snd st))).
Proof.
  cbv zeta. unfold mistake, blunder.
  pose proof (classify_reads previous_eval current_eval) as Hr.
  repeat match goal with |- _ /\ _ => split end;
    try reflexivity; try classified;
    try (split; intros Hc; [rewrite Hc in Hr; lia | classified]).
  all: intros st st' move p Hprev Hbody Hcur.
  all: destruct (loop_body_returns _ _ _ _ Hbody) as [info Hst].
  all: destruct (classify_body_counters (snd st) info) as (_ & Hs & _).
  all: rewrite <- Hst, Hcur in Hs; injection Hs as Hs.
  all: pose proof (classify_body_lists (snd st) info previous_eval Hprev)
         as Hl.
  all: cbv zeta in Hl; rewrite <- Hst, <- Hs in Hl.
  all: repeat match goal with |- _ /\ _ => split end.
  all: intros; destruct (classify previous_eval current_eval);
         solve [exact Hl | exfalso; lia].
Qed.

(** C2. The move number recorded at the ply with 1-based index [ply] is
    [ceil(ply / 2)]: when the loop has processed the plies before it, the
    running count equals [ply], the iteration sets [move_num] to
    [ceil(ply / 2)] and appends nothing but that number, to at most one list.
    For the plies 1 to 10 the numbers are 1,1,2,2,3,3,4,4,5,5. *)
Theorem move_number_of_ply (before : list Move) (move : Move) (b0 : Board)
    (p p' : Proc) (st st' : Board * Locals) :
  outcome (for_each before (b0, init_locals) p) = inr st ->
  outcome (loop_body st move p') = inr st' ->
  let ply := Z.of_nat (length before) + 1 in
  combined_move_num (snd st) = ply
  /\ move_num (snd st') = Some (Qceiling (inject_Z ply / inject_Z 2))
  /\ appended_at_most (Qceiling (inject_Z ply / inject_Z 2)) (snd st) (snd st')
  /\ Qceiling (inject_Z ply / inject_Z 2) = (ply + 1) / 2
  /\ map move_num_of [1; 2; 3; 4; 5; 6; 7; 8; 9; 10]
     = [1; 1; 2; 2; 3; 3; 4; 4; 5; 5].
Proof.
  intros Hbefore Hbody ply.
  destruct (for_each_returns _ _ _ _ Hbefore) as (Hl & Hlen & _ & _).
  cbn [snd] in Hl.
  fold (annotate (infos_of (trace (for_each before (b0, init_locals) p))))
    in Hl.
  pose proof (plies_invariant_annotate
                (infos_of (trace (for_each before (b0, init_locals) p))))
    as (Hc & _).
  rewrite <- Hl, Hlen in Hc. fold ply in Hc.
  destruct (loop_body_returns _ _ _ _ Hbody) as [info ->].
  destruct (classify_body_counters (snd st) info) as (_ & _ & Hm).
  pose proof (classify_body_appended (snd st) info) as Happ.
  rewrite Hc in Hm, Happ.
  change (Qceiling (inject_Z ply / inject_Z 2)) with (move_num_of ply).
  repeat split; try assumption; try apply Happ.
  apply move_num_of_div.
Qed.

(** C3. The first ply never produces an event: its evaluation is compared
    with itself (a delta of 0) and only becomes the previous evaluation of
    the second ply.  A game of a single move, whatever the engine answers,
    gives four empty lists and the move number 1: that is the only result it
    can return, and it returns it whenever no library call raises. *)
Theorem first_ply_seeds_only (game : Game L) (path : string) (p : Proc)
    (move : Move) (rest : list Move) :
  mainline_moves game = move :: rest ->
  (forall p' st',
      outcome (loop_body (game_board game, init_locals) move p') = inr st' ->
      exists info,
        snd st'
        = mkLocals 2 [] [] [] [] (Some (white_score info 1000)) (Some 1)
        /\ white_score info 1000 - old_score_of init_locals info = 0)
  /\ (rest = [] ->
      (forall res,
          outcome (analyze_game game path p) = inr res ->
          res = ([], [], [], [], 1))
      /\ (forallb succeeded (trace (analyze_game game path p)) = true ->
          outcome (analyze_game game path p) = inr ([], [], [], [], 1))).
Proof.
  intros Hmoves. split.
  - intros p' st' Hbody.
    destruct (loop_body_returns _ _ _ _ Hbody) as [info Hst].
    exists info. cbn [snd] in Hst. rewrite Hst, first_classify_body.
    split; [reflexivity |]. unfold old_score_of. cbn. lia.
  - intros ->.
    assert (Hone : forall res,
              outcome (analyze_game game path p) = inr res ->
              res = ([], [], [], [], 1)).
    { intros res Hres.
      destruct (analyze_game_returns _ _ _ _ Hres)
        as (Hlen & _ & _ & _ & n & Hn & ->).
      rewrite Hmoves in Hlen.
      destruct (infos_of (trace (analyze_game game path p)))
        as [| info [| info' infos]]; try discriminate.
      unfold annotate in *. cbn [fold_left] in *.
      rewrite first_classify_body in *. cbn in *. congruence. }
    split; [exact Hone |]. intros Hall.
    destruct (analyze_game_completes game path p) as [res Hres];
      [rewrite Hmoves; discriminate | exact Hall |].
    now rewrite Hres, (Hone res Hres).
Qed.

(** C4. When no library call raises and the engine's answers come to the
    evaluations 20, 20, -310, -310, -50, the game has five plies and
    [analyze_game] returns one White blunder at move 2 (ply 3, delta -330),
    one Black mistake at move 3 (ply 5, delta 260), nothing else, and the
    move count 3. *)
Theorem scenario_events (game : Game L) (path : string) (p : Proc) :
  evaluations (trace (analyze_game game path p)) = [20; 20; -310; -310; -50] ->
  forallb succeeded (trace (analyze_game game path p)) = true ->
  outcome (analyze_game game path p) = inr ([], [2], [3], [], 3)
  /\ length (mainline_moves game) = 5%nat
  /\ classify 20 20 = NoEvent
  /\ classify 20 (-310) = WhiteBlunder
  /\ classify (-310) (-310) = NoEvent
  /\ classify (-310) (-50) = BlackMistake.
Proof.
  intros Hev Hall.
  destruct (analyze_game_completes game path p) as [res Hres];
    [| exact Hall |].
  { intros Hnil. unfold evaluations in Hev.
    rewrite (no_moves_no_infos game path p Hnil) in Hev. discriminate. }
  destruct (analyze_game_returns _ _ _ _ Hres)
    as (Hlen & _ & _ & _ & n & Hn & Hr).
  unfold evaluations in Hev.
  destruct (infos_of (trace (analyze_game game path p)))
    as [| i1 [| i2 [| i3 [| i4 [| i5 [| i6 infos]]]]]]; try discriminate.
  cbn [map] in Hev. injection Hev as H1 H2 H3 H4 H5.
  assert (Hann : annotate [i1; i2; i3; i4; i5]
                 = mkLocals 6 [3] [] [] [2] (Some (-50)) (Some 3)).
  { unfold annotate. cbn [fold_left].
    rewrite first_classify_body, H1.
    rewrite (classify_body_bound
               (mkLocals 2 [] [] [] [] (Some 20) (Some 1))
               (mkLocals 3 [] [] [] [] (Some 20) (Some 1))
               i2 20 20 eq_refl H2 eq_refl).
    rewrite (classify_body_bound
               (mkLocals 3 [] [] [] [] (Some 20) (Some 1))
               (mkLocals 4 [] [] [] [2] (Some (-310)) (Some 2))
               i3 20 (-310) eq_refl H3 eq_refl).
    rewrite (classify_body_bound
               (mkLocals 4 [] [] [] [2] (Some (-310)) (Some 2))
               (mkLocals 5 [] [] [] [2] (Some (-310)) (Some 2))
               i4 (-310) (-310) eq_refl H4 eq_refl).
    exact (classify_body_bound
             (mkLocals 5 [] [] [] [2] (Some (-310)) (Some 2)) _
             i5 (-310) (-50) eq_refl H5 eq_refl). }
  rewrite Hann in Hn, Hr. cbn in Hn, Hr. injection Hn as <-.
  rewrite Hres, Hr. split; [reflexivity |].
  split; [now rewrite <- Hlen |]. repeat split.
Qed.

(** C5. When the analysis of a game completes, the game has at least one
    ply and the four returned lists together hold at most one entry per ply
    after the first. *)
Theorem events_bounded_by_plies (game : Game L) (path : string) (p : Proc)
    (wm wb bm bb : list Z) (n : Z) :
  outcome (analyze_game game path p) = inr (wm, wb, bm, bb, n) ->
  (1 <= length (mainline_moves game))%nat
  /\ (length wm + length wb + length bm + length bb
      <= length (mainline_moves game) - 1)%nat.
Proof.
  intros Hres.
  destruct (analyze_game_returns _ _ _ _ Hres)
    as (Hlen & _ & _ & _ & n' & Hn & [= -> -> -> -> ->]).
  pose proof (plies_invariant_annotate
                (infos_of (trace (analyze_game game path p))))
    as (_ & H0 & _ & Htot & _).
  rewrite Hlen in H0, Htot. unfold events_total in Htot.
  split; [| exact Htot].
  destruct (length (mainline_moves game)); [| lia].
  destruct (H0 eq_refl) as [_ Hnone]. congruence.
Qed.


(** C7, what the code does.  For a game without moves the loop body never
    runs, [move_num] is never bound, and [analyze_game] raises instead of
    returning: when the engine starts, is configured and quits without
    error, the exception is the [UnboundLocalError] of the [return]
    statement, raised after [engine.quit()]. *)
Theorem empty_game_unbound_move_num (b : Board) (path : string) (p : Proc) :
  (exists e, outcome (analyze_game (mkGame b []) path p) = inl e)
  /\ (forallb succeeded (trace (analyze_game (mkGame b []) path p)) = true
      <-> outcome (analyze_game (mkGame b []) path p)
          = inl (UnboundLocalError "move_num"))
  /\ (outcome (analyze_game (mkGame b []) path p)
      = inl (UnboundLocalError "move_num") ->
      quits (trace (analyze_game (mkGame b []) path p)) = 1%nat).
Proof.
  rewrite analyze_game_unfold. cbn [mainline_moves game_board for_each].
  destruct (lib_popen_uci path p) as [p1 [e | u1]].
  { cbn. split; [eexists; reflexivity |].
    split; [split |]; intros H; discriminate H. }
  destruct (lib_configure 10 p1) as [p2 [e | u2]].
  { cbn. split; [eexists; reflexivity |].
    split; [split |]; intros H; discriminate H. }
  cbn. destruct (lib_quit p2) as [p3 [e | u3]]; cbn.
  - split; [eexists; reflexivity |].
    split; [split |]; intros H; discriminate H.
  - split; [eexists; reflexivity |]. split; [split |]; reflexivity.
Qed.

(** C8, as the code has it.  [engine.quit()] is the statement after the
    loop and nothing guards it: it is called once when every earlier call
    returned and not at all otherwise.  A call that raises is the last call
    of the run and its exception is what [analyze_game] raises; when that
    call is an evaluation request or a move application, the engine is never
    told to quit. *)
Theorem quit_only_after_the_loop (game : Game L) (path : string) (p : Proc) :
  quits (trace (analyze_game game path p))
  = (if loop_completed (trace (analyze_game game path p)) then 1 else 0)%nat
  /\ (forall res,
        outcome (analyze_game game path p) = inr res ->
        quits (trace (analyze_game game path p)) = 1%nat)
  /\ (forall ev e,
        In ev (trace (analyze_game game path p)) ->
        failure_of ev = Some e ->
        outcome (analyze_game game path p) = inl (LibError e)
        /\ (exists tr,
              trace (analyze_game game path p) = tr ++ [ev] /\ clean tr)
        /\ (is_quit ev = false ->
            quits (trace (analyze_game game path p)) = 0%nat)).
Proof.
  split; [apply analyze_game_quits |].
  split; [intros res Hres; apply (analyze_game_returns _ _ _ _ Hres) |].
  intros ev e. apply failed_call_is_last.
Qed.

(** C9, as the code has it.  The loop hands every move to [board.push] and
    tests nothing itself.  When [board.push] raises for a move, that call is
    the last one of the run: the moves before it were pushed in order, the
    position is not evaluated, no later move is pushed, the engine is not
    told to quit, and [analyze_game] raises the exception of [board.push]. *)
Theorem push_failure_aborts (game : Game L) (path : string) (p : Proc)
    (m : Move) (e : Err) :
  In (EPush m (inl e)) (trace (analyze_game game path p)) ->
  outcome (analyze_game game path p) = inl (LibError e)
  /\ quits (trace (analyze_game game path p)) = 0%nat
  /\ exists tr post,
       trace (analyze_game game path p) = tr ++ [EPush m (inl e)]
       /\ clean tr
       /\ mainline_moves game = pushed_moves tr ++ m :: post.
Proof.
  intros Hin.
  destruct (failed_call_is_last game path p _ e Hin eq_refl)
    as (Hout & [tr [Htr Hclean]] & Hq).
  split; [exact Hout |]. split; [apply Hq; reflexivity |].
  destruct (analyze_game_pushed_prefix game path p) as [post Hpost].
  rewrite Htr, pushed_moves_app in Hpost. cbn [pushed_moves] in Hpost.
  rewrite <- app_assoc in Hpost. cbn [app] in Hpost.
  exists tr, post. auto.
Qed.

(** C10. A returned move count is [ceil(n / 2)] for the number [n] of
    plies of the game, which is then at least 1, and every move number in the
    four returned lists lies between 1 and that count.  A game of at least
    one ply does return when no library call raises. *)
Theorem total_moves_and_range (game : Game L) (path : string) (p : Proc) :
  (forall wm wb bm bb n,
      outcome (analyze_game game path p) = inr (wm, wb, bm, bb, n) ->
      n = Qceiling (inject_Z (Z.of_nat (length (mainline_moves game)))
                    / inject_Z 2)
      /\ (1 <= length (mainline_moves game))%nat
      /\ Forall (fun m => 1 <= m <= n) (wm ++ wb ++ bm ++ bb))
  /\ (mainline_moves game <> [] ->
      forallb succeeded (trace (analyze_game game path p)) = true ->
      exists res, outcome (analyze_game game path p) = inr res).
Proof.
  split; [| apply analyze_game_completes].
  intros wm wb bm bb n Hres.
  destruct (analyze_game_returns _ _ _ _ Hres)
    as (Hlen & _ & _ & _ & n' & Hn & [= -> -> -> -> ->]).
  pose proof (plies_invariant_annotate
                (infos_of (trace (analyze_game game path p))))
    as (_ & H0 & Hpos & _ & Hall).
  rewrite Hlen in H0, Hpos, Hall.
  assert (Hk : length (mainline_moves game) <> 0%nat).
  { intros Hz. destruct (H0 Hz) as [_ Hnone]. congruence. }
  destruct (Hpos Hk) as [_ Hm]. rewrite Hm in Hn. injection Hn as <-.
  split; [reflexivity |]. split; [lia |]. exact Hall.
Qed.

End LoopFacts.

(** ** The claims on the scripted engine *)

Section Scenarios.
Import Scripted.
Local Open Scope string_scope.

(** C1 at the third ply of the five-ply scenario: from 20 to -310, the
    move number 2 goes to [white_blunders] and to no other list. *)
Lemma classify_priority_witness :
  black_blunders (snd after_three) = black_blunders (snd after_two)
  /\ black_mistakes (snd after_three) = black_mistakes (snd after_two)
  /\ white_blunders (snd after_three)
     = (white_blunders (snd after_two) ++ [2])%list
  /\ white_mistakes (snd after_three) = white_mistakes (snd after_two).
Proof.
  destruct (@classify_priority (lib any_move) 20 (-310))
    as (_ & _ & _ & _ & _ & _ & _ & _ & _ & _ & H).
  destruct (H after_two after_three "g1f3" [cp (-310)]
              eq_refl eq_refl eq_refl) as (_ & _ & Hwb & _).
  apply Hwb. lia.
Defined.

(** C2 at the third ply of the five-ply scenario. *)
Lemma move_number_of_ply_witness :
  combined_move_num (snd after_two) = 3
  /\ move_num (snd after_three) = Some 2
  /\ appended_at_most 2 (snd after_two) (snd after_three)
  /\ 2 = (3 + 1) / 2
  /\ map move_num_of [1; 2; 3; 4; 5; 6; 7; 8; 9; 10]
     = [1; 1; 2; 2; 3; 3; 4; 4; 5; 5].
Proof.
  exact (@move_number_of_ply (lib any_move) ["e2e4"; "e7e5"] "g1f3" []
           scenario [cp (-310); cp (-310); cp (-50)] after_two after_three
           eq_refl eq_refl).
Defined.

(** C3 on a game of one move that the engine scores at 5000. *)
Lemma first_ply_seeds_only_witness :
  (forall p' st',
      outcome (@loop_body (lib any_move) ([], init_locals) "e2e4" p')
      = inr st' ->
      exists info,
        snd st'
        = mkLocals 2 [] [] [] []
            (Some (@white_score (lib any_move) info 1000)) (Some 1)
        /\ @white_score (lib any_move) info 1000
           - @old_score_of (lib any_move) init_locals info = 0)
  /\ (@nil string = [] ->
      (forall res,
          outcome (run ["e2e4"] [cp 5000]) = inr res ->
          res = ([], [], [], [], 1))
      /\ (forallb succeeded (trace (run ["e2e4"] [cp 5000])) = true ->
          outcome (run ["e2e4"] [cp 5000]) = inr ([], [], [], [], 1))).
Proof.
  exact (@first_ply_seeds_only (lib any_move) (game_of ["e2e4"]) stockfish
           [cp 5000] "e2e4" [] eq_refl).
Defined.

(** C4 on the scripted engine. *)
Lemma scenario_events_witness :
  outcome (run five_plies scenario) = inr ([], [2], [3], [], 3)
  /\ length five_plies = 5%nat
  /\ classify 20 20 = NoEvent
  /\ classify 20 (-310) = WhiteBlunder
  /\ classify (-310) (-310) = NoEvent
  /\ classify (-310) (-50) = BlackMistake.
Proof.
  exact (@scenario_events (lib any_move) (game_of five_plies) stockfish
           scenario eq_refl eq_refl).
Defined.

(** C5 on the five-ply scenario: two events, four plies after the first. *)
Lemma events_bounded_by_plies_witness :
  (1 <= length five_plies)%nat
  /\ (length (@nil Z) + length [2] + length [3] + length (@nil Z)
      <= length five_plies - 1)%nat.
Proof.
  exact (@events_bounded_by_plies (lib any_move) (game_of five_plies) stockfish
           scenario [] [2] [3] [] 3 eq_refl).
Defined.

(** C10 on the five-ply scenario. *)
Lemma total_moves_and_range_witness :
  3 = Qceiling (inject_Z (Z.of_nat (length five_plies)) / inject_Z 2)
  /\ (1 <= length five_plies)%nat
  /\ Forall (fun m => 1 <= m <= 3) ([] ++ [2] ++ [3] ++ [])%list.
Proof.
  exact (proj1 (@total_moves_and_range (lib any_move) (game_of five_plies)
                  stockfish scenario) [] [2] [3] [] 3 eq_refl).
Defined.



(** C7 on the scripted engine: a game without moves. *)
Example empty_game_raises :
  outcome (run [] []) = inl (UnboundLocalError "move_num")
  /\ quits (trace (run [] [])) = 1%nat.
Proof.
  split; reflexivity.
Qed.

(** C8 as stated fails.  In a game of six plies whose fourth evaluation
    request fails, [analyze_game] raises the engine's exception after four
    requests and [engine.quit()] is not called. *)
Lemma quit_skipped_when_engine_dies :
  outcome (run six_plies dies_at_four) = inl (LibError EngineTerminatedError)
  /\ analyses (trace (run six_plies dies_at_four)) = 4%nat
  /\ quits (trace (run six_plies dies_at_four)) = 0%nat.
Proof.
  repeat split.
Qed.

(** C9 as stated fails.  [e2e5] is not a legal first move, [board.push]
    carries it out all the same, and the game is analysed to its end. *)
Lemma illegal_first_move_is_analysed :
  first_move_legal "e2e5" = false
  /\ outcome (run ["e2e5"; "e7e5"] [cp 30; cp 30]) = inr ([], [], [], [], 1)
  /\ pushed_moves (trace (run ["e2e5"; "e7e5"] [cp 30; cp 30]))
     = ["e2e5"; "e7e5"].
Proof.
  repeat split.
Qed.

(** C9, as the code has it, on a [push] that refuses [e2e5]. *)
Lemma push_failure_aborts_witness :
  outcome (run_checked ["e2e5"; "e7e5"] [cp 30; cp 30])
  = inl (LibError AssertionError)
  /\ quits (trace (run_checked ["e2e5"; "e7e5"] [cp 30; cp 30])) = 0%nat
  /\ exists tr post,
       trace (run_checked ["e2e5"; "e7e5"] [cp 30; cp 30])
       = (tr ++ [@EPush (lib opening_only) "e2e5" (inl AssertionError)])%list
       /\ clean tr
       /\ ["e2e5"; "e7e5"] = (pushed_moves tr ++ "e2e5" :: post)%list.
Proof.
  apply (@push_failure_aborts (lib opening_only)
           (@mkGame (lib opening_only) [] ["e2e5"; "e7e5"]) stockfish
           [cp 30; cp 30] "e2e5" AssertionError).
  vm_compute. right. right. left. reflexivity.
Defined.

End Scenarios.

(** * The rest of [analyze_and_parse_games.py]: proofs *)

Module PyStrFacts.
Import PyStr.

Lemma has_app (c : N) (a b : str) : has c (a ++ b) = has c a || has c b.
Proof.
  unfold has. apply existsb_app.
Qed.

Lemma has_cons_false (c x : N) (s : str) :
  has c (x :: s) = false -> (c =? x)%N = false /\ has c s = false.
Proof.
  unfold has. cbn. apply orb_false_elim.
Qed.

Lemma starts_with_refl_app (p s : str) : starts_with p (p ++ s) = true.
Proof.
  induction p as [| x p IH]; [reflexivity |].
  cbn. now rewrite N.eqb_refl, IH.
Qed.

Lemma starts_with_app_long (p a b : str) :
  (length p <= length a)%nat -> starts_with p (a ++ b) = starts_with p a.
Proof.
  revert a. induction p as [| x p IH]; intros a Hlen; [reflexivity |].
  destruct a as [| y a]; cbn in *; [lia |].
  rewrite IH by lia. reflexivity.
Qed.

Lemma starts_with_first (p s : str) (x c : N) :
  (x =? c)%N = false -> starts_with (x :: p) (c :: s) = false.
Proof.
  intros H. cbn. now rewrite H.
Qed.

Lemma drop_last_app (n : nat) (a b : str) :
  length b = n -> drop_last n (a ++ b) = a.
Proof.
  intros <-. unfold drop_last. rewrite length_app.
  replace (length a + length b - length b)%nat with (length a + 0)%nat by lia.
  rewrite firstn_app_2. cbn. apply app_nil_r.
Qed.

(** The lazy run stops at the first [q0] when nothing before it is [q0] or
    refused by [.]. *)
Lemma lazy_then_run (dotall : bool) (q0 : N) (a r : str) :
  has q0 a = false ->
  forallb (dot dotall) a = true ->
  lazy_then dotall [q0] (a ++ q0 :: r) = Some (a ++ [q0], r).
Proof.
  induction a as [| c a IH]; intros Hq Hdot.
  - cbn. now rewrite N.eqb_refl.
  - apply has_cons_false in Hq. destruct Hq as [Hc Hq].
    cbn in Hdot. apply andb_prop in Hdot. destruct Hdot as [Hd Hdot].
    cbn [app lazy_then starts_with]. rewrite Hc. cbn [andb].
    rewrite Hd, (IH Hq Hdot). reflexivity.
Qed.

Lemma line_rest_all (s : str) : has newline s = false -> line_rest s = s.
Proof.
  induction s as [| c s IH]; intros H; [reflexivity |].
  apply has_cons_false in H. destruct H as [Hc H].
  cbn. rewrite N.eqb_sym, Hc, (IH H). reflexivity.
Qed.

Lemma search_cons_miss (dotall : bool) (p q s : str) (c : N) :
  starts_with p (c :: s) = false ->
  search dotall p q (c :: s) = shifted [c] (search dotall p q s).
Proof.
  intros H. cbn [search]. unfold match_at. rewrite H.
  destruct (search dotall p q s) as [[[b m] t] |]; reflexivity.
Qed.

Lemma shifted_shifted (a b : str) (r : option (str * str * str)) :
  shifted a (shifted b r) = shifted (a ++ b) r.
Proof.
  destruct r as [[[x m] t] |]; cbn; [| reflexivity].
  now rewrite app_assoc.
Qed.

(** No match starts at a code point other than the first of [p]. *)
Lemma search_skip (dotall : bool) (x : N) (p q a s : str) :
  has x a = false ->
  search dotall (x :: p) q (a ++ s) = shifted a (search dotall (x :: p) q s).
Proof.
  induction a as [| c a IH]; intros H.
  - cbn [app]. destruct (search dotall (x :: p) q s) as [[[b m] t] |];
      reflexivity.
  - apply has_cons_false in H. destruct H as [Hc H].
    cbn [app]. rewrite search_cons_miss by now apply starts_with_first.
    rewrite (IH H), shifted_shifted. reflexivity.
Qed.

Lemma search_here (dotall : bool) (p q s m r : str) :
  match_at dotall p q s = Some (m, r) ->
  search dotall p q s = Some ([], m, r).
Proof.
  intros H. destruct s; cbn [search]; now rewrite H.
Qed.

Lemma occurs_cons_false (p s : str) (c : N) :
  occurs p (c :: s) = false ->
  starts_with p (c :: s) = false /\ occurs p s = false.
Proof.
  cbn [occurs]. apply orb_false_elim.
Qed.

Lemma occurs_false_search (dotall : bool) (p q s : str) :
  occurs p s = false -> search dotall p q s = None.
Proof.
  induction s as [| c s IH]; intros H.
  - cbn in *. unfold match_at. apply orb_false_elim in H.
    destruct H as [H _]. now rewrite H.
  - apply occurs_cons_false in H. destruct H as [Hs H].
    rewrite search_cons_miss by exact Hs. now rewrite (IH H).
Qed.

(** The leftmost match is at the first occurrence of [p] when the pattern
    matches there. *)
Lemma search_first (dotall : bool) (p q pre tail m r : str) :
  p <> [] ->
  occurs p (pre ++ removelast p) = false ->
  match_at dotall p q (p ++ tail) = Some (m, r) ->
  search dotall p q (pre ++ p ++ tail) = Some (pre, m, r).
Proof.
  intros Hp. destruct (exists_last Hp) as (p0 & z & ->).
  rewrite removelast_last. intros Hocc Hm.
  induction pre as [| c pre IH].
  - cbn [app]. now apply search_here.
  - cbn [app] in Hocc. apply occurs_cons_false in Hocc.
    destruct Hocc as [Hs Hocc].
    cbn [app]. rewrite search_cons_miss.
    + rewrite (IH Hocc). reflexivity.
    + rewrite <- Hs.
      replace (c :: pre ++ (p0 ++ [z]) ++ tail)
        with ((c :: pre ++ p0) ++ z :: tail)
        by (cbn; now rewrite <- !app_assoc).
      apply starts_with_app_long.
      cbn [length]. rewrite !length_app. cbn. lia.
Qed.

End PyStrFacts.

Section ParsingFacts.
Import PyStr PyStrFacts.

Lemma search_greedy_none (x : N) (s : str) :
  has x s = false -> search_greedy [x] s = None.
Proof.
  induction s as [| c s IH]; intros H; [reflexivity |].
  apply has_cons_false in H. destruct H as [Hc H].
  cbn. rewrite Hc. cbn. exact (IH H).
Qed.

Lemma search_greedy_skip (x : N) (a s : str) :
  has x a = false -> search_greedy [x] (a ++ s) = search_greedy [x] s.
Proof.
  induction a as [| c a IH]; intros H; [reflexivity |].
  apply has_cons_false in H. destruct H as [Hc H].
  cbn [app search_greedy starts_with]. rewrite Hc. cbn [andb].
  exact (IH H).
Qed.

(** X1. A title that ends in a 29-character suffix and whose name is
    [main], a colon and [rest] on one line, [main] without a colon, is split
    at that colon: the full name is the title without the suffix, the main
    name is [main], and the variation is [rest] without its first character
    (the blank after the colon). *)
Theorem opening_names_split (main rest suffix : str) :
  length suffix = 29%nat ->
  has colon main = false ->
  has newline main = false ->
  has newline rest = false ->
  Opening.opening_names (main ++ colon :: rest ++ suffix)
  = (main ++ colon :: rest, main, skipn 1 rest).
Proof.
  intros Hlen Hcolon Hnl Hrest. unfold Opening.opening_names.
  replace (main ++ colon :: rest ++ suffix)
    with ((main ++ colon :: rest) ++ suffix)
    by (now rewrite <- app_assoc).
  rewrite (drop_last_app 29 _ _ Hlen). cbv zeta.
  assert (Hdot : forallb (dot false) main = true).
  { clear - Hnl. induction main as [| c s IH]; [reflexivity |].
    apply has_cons_false in Hnl. destruct Hnl as [Hc Hnl].
    cbn. unfold dot at 1. rewrite N.eqb_sym, Hc. cbn. exact (IH Hnl). }
  rewrite (search_here false [] [colon] (main ++ colon :: rest)
             (main ++ [colon]) rest).
  2:{ unfold match_at. cbn [starts_with length skipn app].
      now rewrite (lazy_then_run false colon main rest Hcolon Hdot). }
  rewrite (search_greedy_skip colon main _ Hcolon).
  cbn [search_greedy starts_with]. rewrite N.eqb_refl. cbn [andb].
  cbn [length skipn app]. rewrite (line_rest_all rest Hrest).
  rewrite (drop_last_app 1 main [colon] eq_refl). reflexivity.
Qed.

(** X2. When the title without its last 29 characters has no colon, the
    [except] branch answers: the main name is the full name and the
    variation is empty. *)
Theorem opening_names_no_colon (title : str) :
  has colon (drop_last 29 title) = false ->
  Opening.opening_names title
  = (drop_last 29 title, drop_last 29 title, []).
Proof.
  intros H. unfold Opening.opening_names. cbv zeta.
  rewrite (search_greedy_none colon _ H).
  destruct (search false [] [colon] (drop_last 29 title))
    as [[[b m] t] |]; reflexivity.
Qed.

(** X3. A record in which the text ["accuracies":{"white":] does not occur
    gives two empty accuracies. *)
Theorem accuracies_missing (record : str) :
  occurs Accuracy.accuracies_key record = false ->
  Accuracy.accuracies_of record = ([], []).
Proof.
  intros H. unfold Accuracy.accuracies_of.
  now rewrite (occurs_false_search false _ [rbrace] record H).
Qed.

(** X4. A record whose first ["accuracies":{"white":] is followed by the
    white accuracy [w], a comma, ["black":], the black accuracy [b] and a
    closing brace gives back [w] and [b], when [w] has no quote, comma,
    brace or newline and [b] no brace or newline. *)
Theorem accuracies_round_trip (pre w b post : str) :
  occurs Accuracy.accuracies_key (pre ++ removelast Accuracy.accuracies_key)
  = false ->
  has quote w = false -> has comma w = false ->
  has rbrace w = false -> has newline w = false ->
  has rbrace b = false -> has newline b = false ->
  Accuracy.accuracies_of
    (pre ++ Accuracy.accuracies_key ++ w ++ comma :: Accuracy.black_key
     ++ b ++ rbrace :: post)
  = (w, b).
Proof.
  intros Hpre Hq Hc Hr Hn Hbr Hbn.
  assert (Hdot : forall s, has newline s = false ->
                   forallb (dot false) s = true).
  { induction s as [| c s IH]; intros H; [reflexivity |].
    apply has_cons_false in H. destruct H as [Hx H].
    cbn. unfold dot at 1. rewrite N.eqb_sym, Hx. cbn. exact (IH H). }
  set (acc := Accuracy.accuracies_key ++ w ++ comma :: Accuracy.black_key
              ++ b ++ [rbrace]).
  assert (Hacc : search false Accuracy.accuracies_key [rbrace]
                   (pre ++ Accuracy.accuracies_key ++ w ++ comma
                    :: Accuracy.black_key ++ b ++ rbrace :: post)
                 = Some (pre, acc, post)).
  { apply search_first; [discriminate | exact Hpre |].
    unfold match_at. rewrite starts_with_refl_app.
    rewrite skipn_app, skipn_all, Nat.sub_diag. cbn [skipn app].
    replace (w ++ comma :: Accuracy.black_key ++ b ++ rbrace :: post)
      with ((w ++ comma :: Accuracy.black_key ++ b) ++ rbrace :: post)
      by (rewrite <- app_assoc; cbn [app]; now rewrite <- app_assoc).
    rewrite lazy_then_run.
    - unfold acc. rewrite <- app_assoc. cbn [app].
      now rewrite <- app_assoc.
    - change (comma :: Accuracy.black_key ++ b)
        with ((comma :: Accuracy.black_key) ++ b).
      now rewrite !has_app, Hr, Hbr.
    - change (comma :: Accuracy.black_key ++ b)
        with ((comma :: Accuracy.black_key) ++ b).
      now rewrite !forallb_app, (Hdot w Hn), (Hdot b Hbn). }
  assert (Hw : exists x t,
             search false Accuracy.white_key [comma] acc
             = Some (x, Accuracy.white_key ++ w ++ [comma], t)).
  { exists (quote :: py "accuracies" ++ quote :: py ":{"),
      (Accuracy.black_key ++ b ++ [rbrace]).
    change acc
      with ((quote :: py "accuracies" ++ quote :: py ":{")
            ++ Accuracy.white_key
            ++ w ++ comma :: Accuracy.black_key ++ b ++ [rbrace]).
    apply search_first; [discriminate | reflexivity |].
    unfold match_at. rewrite starts_with_refl_app.
    rewrite skipn_app, skipn_all, Nat.sub_diag. cbn [skipn app].
    now rewrite (lazy_then_run false comma w _ Hc (Hdot w Hn)). }
  assert (Hb : exists x,
             search false Accuracy.black_key [rbrace] acc
             = Some (x, Accuracy.black_key ++ b ++ [rbrace], [])).
  { unfold acc.
    let k := eval vm_compute in Accuracy.accuracies_key in
    change Accuracy.accuracies_key with k.
    cbn [app].
    repeat (rewrite search_cons_miss by reflexivity).
    unfold Accuracy.black_key at 1 2.
    rewrite (search_skip false quote _ [rbrace] w _ Hq).
    fold Accuracy.black_key.
    rewrite search_cons_miss by reflexivity.
    rewrite (search_here false Accuracy.black_key [rbrace]
               (Accuracy.black_key ++ b ++ [rbrace])
               (Accuracy.black_key ++ b ++ [rbrace]) []).
    - cbn [shifted app]. eauto.
    - unfold match_at. rewrite starts_with_refl_app.
      rewrite skipn_app, skipn_all, Nat.sub_diag. cbn [skipn app].
      now rewrite (lazy_then_run false rbrace b [] Hbr (Hdot b Hbn)). }
  destruct Hw as (xw & tw & Hw). destruct Hb as (xb & Hb).
  unfold Accuracy.accuracies_of. rewrite Hacc, Hw, Hb.
  unfold slice. f_equal.
  - replace (Accuracy.white_key ++ w ++ [comma])
      with ((Accuracy.white_key ++ w) ++ [comma])
      by (now rewrite <- app_assoc).
    rewrite (drop_last_app 1 _ [comma] eq_refl).
    rewrite skipn_app, skipn_all2 by (cbn; lia). reflexivity.
  - replace (Accuracy.black_key ++ b ++ [rbrace])
      with ((Accuracy.black_key ++ b) ++ [rbrace])
      by (now rewrite <- app_assoc).
    rewrite (drop_last_app 1 _ [rbrace] eq_refl).
    rewrite skipn_app, skipn_all2 by (cbn; lia). reflexivity.
Qed.

End ParsingFacts.

Section RowFacts.
Import PyStr PyStrFacts Report.

Lemma eqb_eq (a b : str) : eqb a b = true <-> a = b.
Proof.
  revert b. induction a as [| x a IH]; intros [| y b]; cbn;
    try (split; [discriminate | discriminate]); [tauto |].
  rewrite andb_true_iff, N.eqb_eq, IH.
  split; [intros [-> ->]; reflexivity | intros [= -> ->]; auto].
Qed.

Lemma eqb_neq (a b : str) : eqb a b = false <-> a <> b.
Proof.
  rewrite <- eqb_eq. destruct (eqb a b); split; congruence.
Qed.

(** X5. On a row whose cells 4, 5 and 6 are the names of White and Black
    and the result, the word is [Win] exactly when the result is [1-0] and
    the user is White or it is [0-1] and the user is Black; [Loss] exactly
    when the side that won is the other one and the user is the loser;
    [Draw] exactly when the result is [1/2-1/2] and the user is one of the
    two; in every other case, an unfinished game or a game of two other
    players, no word is appended.  No subscript raises. *)
Theorem win_loss_draw_table (user_name white black result : str)
    (row_data : list Cell) :
  nth_error row_data 4 = Some (CStr white) ->
  nth_error row_data 5 = Some (CStr black) ->
  nth_error row_data 6 = Some (CStr result) ->
  (win_loss_draw user_name row_data = inr (Some (py "Win"))
   <-> (result = py "1-0" /\ white = user_name)
       \/ (result = py "0-1" /\ black = user_name))
  /\ (win_loss_draw user_name row_data = inr (Some (py "Loss"))
      <-> (result = py "1-0" /\ black = user_name /\ white <> user_name)
          \/ (result = py "0-1" /\ white = user_name /\ black <> user_name))
  /\ (win_loss_draw user_name row_data = inr (Some (py "Draw"))
      <-> result = py "1/2-1/2" /\ (white = user_name \/ black = user_name))
  /\ (win_loss_draw user_name row_data = inr None
      <-> (white <> user_name /\ black <> user_name)
          \/ (result <> py "1-0" /\ result <> py "0-1"
              /\ result <> py "1/2-1/2")).
Proof.
  intros H4 H5 H6. unfold win_loss_draw, is_at. rewrite H4, H5, H6.
  cbn [cell_is].
  assert (D1 : py "1-0" <> py "0-1") by (vm_compute; discriminate).
  assert (D2 : py "1-0" <> py "1/2-1/2") by (vm_compute; discriminate).
  assert (D3 : py "0-1" <> py "1/2-1/2") by (vm_compute; discriminate).
  assert (W1 : py "Win" <> py "Loss") by (vm_compute; discriminate).
  assert (W2 : py "Win" <> py "Draw") by (vm_compute; discriminate).
  assert (W3 : py "Loss" <> py "Draw") by (vm_compute; discriminate).
  destruct (eqb result (py "1-0")) eqn:E1;
    destruct (eqb result (py "0-1")) eqn:E2;
    destruct (eqb result (py "1/2-1/2")) eqn:E3;
    destruct (eqb white user_name) eqn:Ew;
    destruct (eqb black user_name) eqn:Eb;
    cbn [and_sc or_sc branch];
    rewrite ?eqb_eq, ?eqb_neq in *;
    repeat match goal with
           | |- _ /\ _ => split
           | |- _ <-> _ => split
           end;
    intros;
    solve [ intuition congruence
          | exfalso; intuition congruence
          | match goal with
            | H : inr _ = inr _ |- _ => injection H; intros; intuition congruence
            end ].
Qed.

End RowFacts.

(** ** More about [analyze_game] *)

Section AnalysisFacts.
Context {L : ChessLib}.

Lemma for_each_replay (moves : list Move) :
  forall b l p st',
    outcome (for_each moves (b, l) p) = inr st' ->
    replay b moves (trace (for_each moves (b, l) p)).
Proof.
  induction moves as [| m rest IH]; intros b l p st'.
  - intros _. constructor.
  - rewrite for_each_cons. cbn [fst snd].
    destruct (lib_push b m) as [e | b'] eqn:Hpush; [discriminate |].
    destruct (lib_analyse b' 18 p) as [p' [e | info]]; [discriminate |].
    cbn [outcome trace]. intros Hout.
    constructor; [exact Hpush | exact (IH _ _ _ _ Hout)].
Qed.

(** X6. A completed analysis made exactly these calls, in this order: the
    engine was started from the given path and configured with 10 threads;
    then every move of the main line, in order, was pushed on the board
    reached so far and the position after it evaluated once at depth 18;
    then the engine was told to quit.  The starting position is not
    evaluated and no position is evaluated twice. *)
Theorem completed_analysis_calls (game : Game L) (path : string) (p : Proc)
    (res : list Z * list Z * list Z * list Z * Z) :
  outcome (analyze_game game path p) = inr res ->
  exists tr,
    trace (analyze_game game path p)
    = EPopen path (inr tt) :: EConfigure 10 (inr tt) :: tr ++ [EQuit (inr tt)]
    /\ replay (game_board game) (mainline_moves game) tr
    /\ analyses tr = length (mainline_moves game).
Proof.
  rewrite analyze_game_unfold.
  destruct (lib_popen_uci path p) as [p1 [e | []]]; [discriminate |].
  destruct (lib_configure 10 p1) as [p2 [e | []]]; [discriminate |].
  cbv zeta.
  pose proof (for_each_replay (mainline_moves game) (game_board game)
                init_locals p2) as Hrep.
  destruct (outcome (for_each _ _ p2)) as [e | st]; [discriminate |].
  destruct (lib_quit _) as [p3 [e | []]]; [discriminate |].
  intros _. cbn [trace]. eexists. split; [reflexivity |].
  specialize (Hrep st eq_refl). split; [exact Hrep |].
  clear - Hrep. induction Hrep as [| b b' m info moves tr _ _ IH];
    [reflexivity |]. cbn. now rewrite IH.
Qed.

Lemma sorted_snoc (l : list Z) (n : Z) :
  StronglySorted Z.le l -> Forall (fun x => x <= n) l ->
  StronglySorted Z.le (l ++ [n]).
Proof.
  induction 1 as [| x l Hs IH Hx]; intros Hle; cbn.
  - repeat constructor.
  - inversion Hle as [| ? ? Hxn Hl]; subst. constructor; [auto |].
    apply Forall_app. split; [exact Hx | repeat constructor; exact Hxn].
Qed.

Lemma move_num_of_next (k : Z) :
  move_num_of (k + 1)
  = if Z.odd k then move_num_of k else move_num_of k + 1.
Proof.
  rewrite !move_num_of_div.
  pose proof (Zmod_odd k) as Hodd.
  destruct (Z.odd k); Z.div_mod_to_equations; lia.
Qed.

Lemma order_invariant_init : order_invariant 0 init_locals.
Proof.
  unfold order_invariant. cbn.
  repeat split; try constructor; try lia; discriminate.
Qed.

Lemma count_snoc (l : list Z) (n m : Z) :
  count_occ Z.eq_dec (l ++ [n]) m
  = (count_occ Z.eq_dec l m + if Z.eq_dec n m then 1 else 0)%nat.
Proof.
  rewrite count_occ_app. cbn. destruct (Z.eq_dec n m); reflexivity.
Qed.

(** One iteration adds at most one entry, the current move number. *)
Lemma classify_body_count (l : Locals) (info : Info) (m : Z) :
  (count_occ Z.eq_dec (all_events (classify_body l info)) m
   <= count_occ Z.eq_dec (all_events l) m
      + if Z.eq_dec (move_num_of (combined_move_num l)) m then 1 else 0)%nat.
Proof.
  unfold classify_body, all_events.
  destruct (classify _ _);
    cbn [record_event white_mistakes white_blunders black_mistakes
         black_blunders];
    rewrite !count_occ_app; cbn [count_occ];
    destruct (Z.eq_dec (move_num_of (combined_move_num l)) m); lia.
Qed.

Lemma order_invariant_step (k : nat) (l : Locals) (info : Info) :
  plies_invariant k l -> order_invariant k l ->
  order_invariant (S k) (classify_body l info).
Proof.
  intros (Hc & _ & _ & _ & Hall) (S1 & S2 & S3 & S4 & C2 & C0 & C1).
  pose proof (classify_body_appended l info) as (A1 & A2 & A3 & A4 & _).
  pose proof (classify_body_count l info) as Hcount.
  assert (Hn : combined_move_num l = Z.of_nat (S k)) by lia.
  rewrite Hn in A1, A2, A3, A4, Hcount.
  assert (Hnext := move_num_of_next (Z.of_nat k)).
  replace (Z.of_nat k + 1) with (Z.of_nat (S k)) in Hnext by lia.
  assert (Hle : move_num_of (Z.of_nat k) <= move_num_of (Z.of_nat (S k))).
  { apply move_num_of_mono. lia. }
  unfold all_events in Hall. rewrite !Forall_app in Hall.
  destruct Hall as (F1 & F2 & F3 & F4).
  assert (Hsnoc : forall x,
            StronglySorted Z.le x ->
            Forall (fun n => 1 <= n <= move_num_of (Z.of_nat k)) x ->
            StronglySorted Z.le (x ++ [move_num_of (Z.of_nat (S k))])).
  { intros x Hs Hf. apply sorted_snoc; [exact Hs |].
    eapply Forall_impl; [| exact Hf]. cbn beta. intros; lia. }
  unfold order_invariant.
  split; [destruct A1 as [-> | ->]; auto |].
  split; [destruct A2 as [-> | ->]; auto |].
  split; [destruct A3 as [-> | ->]; auto |].
  split; [destruct A4 as [-> | ->]; auto |].
  assert (Hodd : Z.odd (Z.of_nat (S k)) = negb (Z.odd (Z.of_nat k))).
  { replace (Z.of_nat (S k)) with (Z.succ (Z.of_nat k)) by lia.
    rewrite Z.odd_succ. now rewrite <- Z.negb_odd. }
  split; [| split].
  - intros m. specialize (Hcount m). specialize (C2 m).
    destruct (Z.eq_dec (move_num_of (Z.of_nat (S k))) m) as [<- |]; [| lia].
    destruct (Z.odd (Z.of_nat k)) eqn:Ek.
    + rewrite Hnext in Hcount |- *. specialize (C1 eq_refl). lia.
    + rewrite (C0 (move_num_of (Z.of_nat (S k)))) in Hcount by lia. lia.
  - intros m Hm. specialize (Hcount m).
    destruct (Z.eq_dec (move_num_of (Z.of_nat (S k))) m); [lia |].
    rewrite (C0 m) in Hcount by lia. lia.
  - intros Hk. rewrite Hodd in Hk. apply negb_true_iff in Hk.
    specialize (Hcount (move_num_of (Z.of_nat (S k)))).
    rewrite Hk in Hnext.
    rewrite (C0 (move_num_of (Z.of_nat (S k)))) in Hcount by lia.
    destruct (Z.eq_dec _ _); lia.
Qed.

Lemma order_invariant_fold (infos : list Info) :
  forall k l,
    plies_invariant k l -> order_invariant k l ->
    order_invariant (k + length infos) (fold_left classify_body infos l).
Proof.
  induction infos as [| info infos IH]; intros k l Hp Ho;
    cbn [fold_left length].
  - now rewrite Nat.add_0_r.
  - replace (k + S (length infos))%nat with (S k + length infos)%nat by lia.
    apply IH; [apply plies_invariant_step | apply order_invariant_step];
      assumption.
Qed.

(** X7. In a returned result each of the four lists is in non-decreasing
    order, so that its first entry, which is what the CSV row reports as the
    first mistake or blunder, is its least; and no move number occurs more
    than twice in the four lists together. *)
Theorem returned_lists_are_ordered (game : Game L) (path : string) (p : Proc)
    (wm wb bm bb : list Z) (n : Z) :
  outcome (analyze_game game path p) = inr (wm, wb, bm, bb, n) ->
  (forall l, In l [wm; wb; bm; bb] ->
     StronglySorted Z.le l /\ forall x, In x l -> hd x l <= x)
  /\ (forall m, (count_occ Z.eq_dec (wm ++ wb ++ bm ++ bb) m <= 2)%nat).
Proof.
  intros Hres.
  destruct (analyze_game_returns _ _ _ _ Hres)
    as (_ & _ & _ & _ & n' & _ & [= -> -> -> -> _]).
  pose proof (order_invariant_fold
                (infos_of (trace (analyze_game game path p))) 0 init_locals
                plies_invariant_init order_invariant_init)
    as (S1 & S2 & S3 & S4 & C2 & _).
  fold (annotate (infos_of (trace (analyze_game game path p)))) in *.
  split; [| exact C2].
  assert (Hhd : forall l, StronglySorted Z.le l ->
                  forall x, In x l -> hd x l <= x).
  { intros l Hs x Hin. destruct Hs as [| y l _ Hy]; [destruct Hin |].
    cbn. destruct Hin as [-> | Hin]; [lia |].
    rewrite Forall_forall in Hy. exact (Hy x Hin). }
  intros l [<- | [<- | [<- | [<- | []]]]]; split; auto.
Qed.

End AnalysisFacts.

Section RowOfAnalysis.
Context {L : ChessLib}.
Import PyStr Report.

(** A row is the header values, the three names, the result word when
    there is one, and the eleven cells of the analysis. *)
Lemma finish_row_shape (user_name : str) (header_values : list str)
    (names : str * str * str) (wm wb bm bb : list Z) (n : Z)
    (white_accuracy black_accuracy : str) (row : list Cell) :
  finish_row user_name (header_cells header_values) names
    (wm, wb, bm, bb, n) white_accuracy black_accuracy
  = inr row ->
  exists word,
    win_loss_draw user_name
      (header_cells header_values
       ++ [CStr (fst (fst names)); CStr (snd (fst names)); CStr (snd names)])
    = inr word
    /\ row
       = (header_cells header_values
          ++ [CStr (fst (fst names)); CStr (snd (fst names));
              CStr (snd names)]
          ++ match word with
             | Some w => [CStr w]
             | None => []
             end)
         ++ [CInt n; CStr white_accuracy; CStr black_accuracy;
             len bb; len bm; len wb; len wm;
             first_or_empty bb; first_or_empty bm;
             first_or_empty wb; first_or_empty wm].
Proof.
  destruct names as [[full main] variation]. unfold finish_row.
  cbn [fst snd].
  destruct (win_loss_draw user_name _) as [err | word]; [discriminate |].
  intros [= <-]. exists word. split; [reflexivity |].
  destruct word; cbn [app]; rewrite <- !app_assoc; reflexivity.
Qed.

(** What the tuple of a completed analysis puts in the cells: the total is
    [ceil(plies / 2)], the lists hold at most one entry per ply after the
    first, and the head of a list is a move number up to the total. *)
Lemma analysis_cells (game : Game L) (path : string) (p : Proc)
    (wm wb bm bb : list Z) (n : Z) :
  outcome (analyze_game game path p) = inr (wm, wb, bm, bb, n) ->
  let plies := Z.of_nat (length (mainline_moves game)) in
  n = Qceiling (inject_Z plies / inject_Z 2)
  /\ Z.of_nat (length bb) + Z.of_nat (length bm) + Z.of_nat (length wb)
     + Z.of_nat (length wm) <= plies - 1
  /\ first_cell_ok n (Z.of_nat (length bb)) (first_or_empty bb)
  /\ first_cell_ok n (Z.of_nat (length bm)) (first_or_empty bm)
  /\ first_cell_ok n (Z.of_nat (length wb)) (first_or_empty wb)
  /\ first_cell_ok n (Z.of_nat (length wm)) (first_or_empty wm).
Proof.
  intros Hres.
  destruct (analyze_game_returns _ _ _ _ Hres)
    as (Hlen & _ & _ & _ & n' & Hn & Hr).
  pose proof (plies_invariant_annotate
                (infos_of (trace (analyze_game game path p))))
    as (_ & H0 & Hpos & Htot & Hall).
  rewrite Hlen in H0, Hpos, Htot, Hall.
  assert (Hk : length (mainline_moves game) <> 0%nat).
  { intros Hz. destruct (H0 Hz) as [_ Hnone]. congruence. }
  destruct (Hpos Hk) as [_ Hm]. rewrite Hm in Hn. injection Hn as <-.
  set (l := annotate (infos_of (trace (analyze_game game path p)))) in *.
  unfold all_events in Hall. rewrite !Forall_app in Hall.
  destruct Hall as (F1 & F2 & F3 & F4).
  injection Hr as -> -> -> -> ->.
  assert (Hcell : forall x,
            Forall (fun m => 1 <= m
                             <= move_num_of
                                  (Z.of_nat (length (mainline_moves game)))) x ->
            first_cell_ok
              (move_num_of (Z.of_nat (length (mainline_moves game))))
              (Z.of_nat (length x)) (first_or_empty x)).
  { intros [| m x] Hf; [left; split; reflexivity |].
    right. split; [cbn [length]; lia |].
    exists m. split; [reflexivity |]. now inversion Hf. }
  cbv zeta.
  change (Qceiling (inject_Z (Z.of_nat (length (mainline_moves game)))
                    / inject_Z 2))
    with (move_num_of (Z.of_nat (length (mainline_moves game)))).
  split; [reflexivity |].
  split; [unfold events_total in Htot; lia |].
  auto.
Qed.

End RowOfAnalysis.

(** ** The records of the [.txt] file *)

Section RecordFacts.
Import PyStr PyStrFacts Games.

Lemma starts_with_parts (p s : str) :
  starts_with p s = true -> s = p ++ skipn (length p) s.
Proof.
  revert s. induction p as [| x p IH]; intros s H; [reflexivity |].
  destruct s as [| y s]; [discriminate |].
  cbn in H. apply andb_prop in H. destruct H as [Hx H].
  apply N.eqb_eq in Hx. subst y. cbn. f_equal. exact (IH s H).
Qed.

Lemma lazy_then_parts (dotall : bool) (q : str) :
  forall s m r, lazy_then dotall q s = Some (m, r) ->
    s = m ++ r /\ (length q <= length m)%nat.
Proof.
  induction s as [| c s IH]; intros m r; cbn [lazy_then].
  - destruct (starts_with q []) eqn:Hs; [| discriminate].
    intros [= <- <-]. split; [| lia].
    rewrite (starts_with_parts q [] Hs) at 1. reflexivity.
  - destruct (starts_with q (c :: s)) eqn:Hs.
    + intros [= <- <-]. split; [| lia].
      exact (starts_with_parts q (c :: s) Hs).
    + destruct (dot dotall c); [| discriminate].
      destruct (lazy_then dotall q s) as [[m' r'] |]; [| discriminate].
      intros [= <- <-]. destruct (IH m' r' eq_refl) as [-> Hlen].
      split; [reflexivity | cbn; lia].
Qed.

Lemma match_at_parts (dotall : bool) (p q s m r : str) :
  match_at dotall p q s = Some (m, r) ->
  s = m ++ r /\ (length p <= length m)%nat.
Proof.
  unfold match_at. destruct (starts_with p s) eqn:Hs; [| discriminate].
  destruct (lazy_then dotall q (skipn (length p) s)) as [[m' r'] |] eqn:Hl;
    [| discriminate].
  intros [= <- <-]. destruct (lazy_then_parts _ _ _ _ _ Hl) as [Heq _].
  split; [| rewrite length_app; lia].
  rewrite <- app_assoc, <- Heq. exact (starts_with_parts p s Hs).
Qed.

(** A search result cuts the text in three, and the match is at least as
    long as [p]. *)
Lemma search_parts (dotall : bool) (p q : str) :
  forall s b m r, search dotall p q s = Some (b, m, r) ->
    s = b ++ m ++ r /\ (length p <= length m)%nat.
Proof.
  induction s as [| c s IH]; intros b m r; cbn [search].
  - destruct (match_at dotall p q []) as [[m' r'] |] eqn:Hm;
      [| discriminate].
    intros [= <- <- <-]. exact (match_at_parts _ _ _ _ _ _ Hm).
  - destruct (match_at dotall p q (c :: s)) as [[m' r'] |] eqn:Hm.
    + intros [= <- <- <-]. exact (match_at_parts _ _ _ _ _ _ Hm).
    + destruct (search dotall p q s) as [[[b' m'] r'] |]; [| discriminate].
      intros [= <- <- <-]. destruct (IH b' m' r' eq_refl) as [-> Hlen].
      split; [reflexivity | exact Hlen].
Qed.

(** More fuel than the text has code points changes nothing. *)
Lemma findall_from_enough (p q : str) :
  p <> [] ->
  forall fuel s,
    (length s < fuel)%nat ->
    findall_from fuel p q s = findall_from (S (length s)) p q s.
Proof.
  intros Hp.
  assert (Hpos : (1 <= length p)%nat).
  { destruct p; [congruence | cbn; lia]. }
  assert (Hgen : forall n fuel1 fuel2 s,
            (length s < n)%nat -> (length s < fuel1)%nat ->
            (length s < fuel2)%nat ->
            findall_from fuel1 p q s = findall_from fuel2 p q s).
  { induction n as [| n IH]; intros fuel1 fuel2 s Hn H1 H2; [lia |].
    destruct fuel1 as [| fuel1]; [lia |].
    destruct fuel2 as [| fuel2]; [lia |].
    cbn [findall_from].
    destruct (search true p q s) as [[[b m] r] |] eqn:Hs; [| reflexivity].
    destruct (search_parts _ _ _ _ _ _ _ Hs) as [-> Hlen].
    rewrite !length_app in *. f_equal. apply IH; lia. }
  intros fuel s Hfuel. apply (Hgen (S (length s))); lia.
Qed.

(** The lazy run ends at the first occurrence of [q]. *)
Lemma lazy_then_first (q body r : str) :
  q <> [] ->
  occurs q (body ++ removelast q) = false ->
  lazy_then true q (body ++ q ++ r) = Some (body ++ q, r).
Proof.
  intros Hq. destruct (exists_last Hq) as (q0 & z & ->).
  rewrite removelast_last. induction body as [| c body IH]; intros Hocc.
  - cbn [app]. destruct ((q0 ++ [z]) ++ r) as [| c s] eqn:Hs.
    + destruct q0; discriminate Hs.
    + cbn [lazy_then]. rewrite <- Hs, starts_with_refl_app.
      rewrite skipn_app, skipn_all, Nat.sub_diag. reflexivity.
  - cbn [app] in Hocc. apply occurs_cons_false in Hocc.
    destruct Hocc as [Hs Hocc].
    cbn [app lazy_then].
    replace (c :: body ++ (q0 ++ [z]) ++ r)
      with ((c :: body ++ q0) ++ z :: r)
      by (cbn; now rewrite <- !app_assoc).
    rewrite starts_with_app_long
      by (cbn [length]; rewrite !length_app; cbn; lia).
    rewrite Hs. cbn [dot orb].
    replace ((c :: body ++ q0) ++ z :: r)
      with (c :: body ++ (q0 ++ [z]) ++ r)
      by (cbn; now rewrite <- !app_assoc).
    now rewrite (IH Hocc).
Qed.

(** X17. In a text made of records, each of them the key of the PGN text, a
    body and the key of the opening, where no key of a PGN text starts before
    a record or after the last one and the key of the opening does not occur
    inside a body, [re.findall] returns exactly the records, in order: the
    entry [games_data[i]] is the record of game [i]. *)
Theorem games_data_are_the_records (items : list (str * str)) (rest : str) :
  Forall well_separated items ->
  occurs pgn_key rest = false ->
  games_data_of (records_text items rest)
  = map (fun item => record_of (snd item)) items.
Proof.
  intros Hitems Hrest. unfold games_data_of, findall.
  assert (Hgen : forall fuel,
            (length (records_text items rest) < fuel)%nat ->
            findall_from fuel pgn_key eco_key (records_text items rest)
            = map (fun item => record_of (snd item)) items).
  { induction Hitems as [| [before body] items [Hb Hbody] _ IH];
      intros fuel Hfuel.
    - cbn [records_text map] in *. destruct fuel as [| fuel]; [lia |].
      cbn [findall_from].
      now rewrite (occurs_false_search true pgn_key eco_key rest Hrest).
    - cbn [records_text map snd fst] in *.
      destruct fuel as [| fuel]; [lia |].
      cbn [findall_from]. unfold record_of at 1.
      rewrite <- !app_assoc.
      rewrite (search_first true pgn_key eco_key before
                 (body ++ eco_key ++ records_text items rest)
                 (record_of body) (records_text items rest));
        [| discriminate | exact Hb |].
      + f_equal. apply IH.
        unfold record_of in Hfuel. rewrite !length_app in Hfuel.
        assert (Hkey : length pgn_key = 6%nat) by reflexivity. lia.
      + unfold match_at. rewrite starts_with_refl_app.
        rewrite skipn_app, skipn_all, Nat.sub_diag. cbn [skipn app].
        rewrite (lazy_then_first eco_key body _ ltac:(discriminate) Hbody).
        unfold record_of. reflexivity. }
  apply Hgen. lia.
Qed.

End RecordFacts.

(** ** The loop over the games *)

Section BatchFacts.
Context {L : ChessLib} {T : TitleLib}.
Import PyStr Report.

Lemma no_moves_no_result (game : Game L) (path : string) (p : Proc) :
  mainline_moves game = [] ->
  exists e, outcome (analyze_game game path p) = inl e.
Proof.
  intros Hmoves.
  destruct (outcome (analyze_game game path p)) as [e | res] eqn:Hres;
    [eauto |].
  destruct (analyze_game_returns _ _ _ _ Hres)
    as (Hlen & _ & _ & _ & n & Hn & _).
  rewrite Hmoves in Hlen.
  destruct (infos_of (trace (analyze_game game path p))); [| discriminate].
  discriminate Hn.
Qed.

(** A game either adds its row and is counted, or fails and adds nothing. *)
Lemma process_game_cases (user_name : str) (stockfish_path : string)
    (games_data : list str) (b : Batch) (g : GameRecord) :
  let b' := process_game user_name stockfish_path games_data b g in
  (failure b' = None
   /\ game_count b' = S (game_count b)
   /\ exists row, rows b' = rows b ++ [row])
  \/ (failure b' <> None
      /\ game_count b' = game_count b
      /\ rows b' = rows b).
Proof.
  unfold process_game.
  destruct (nth_error games_data (game_count b)) as [data |];
    [| right; repeat split; discriminate].
  destruct (Accuracy.accuracies_of data) as [wa ba].
  cbv zeta.
  destruct (outcome (analyze_game _ _ _)) as [e | analysis];
    [right; repeat split; discriminate |].
  destruct (eco_url (record_headers g)) as [err | url];
    [right; repeat split; discriminate |].
  cbn [web]. destruct (lib_title url (web b)) as [w' [e | title]];
    [right; repeat split; discriminate |].
  destruct (finish_row _ _ _ _ _ _) as [err | row];
    [right; repeat split; discriminate |].
  left. cbn. eauto.
Qed.

Lemma games_loop_app (user_name : str) (stockfish_path : string)
    (games_data : list str) (games1 games2 : list GameRecord) :
  forall b,
    failure b = None ->
    games_loop user_name stockfish_path games_data (games1 ++ games2) b
    = match
        failure (games_loop user_name stockfish_path games_data games1 b)
      with
      | Some _ => games_loop user_name stockfish_path games_data games1 b
      | None =>
          games_loop user_name stockfish_path games_data games2
            (games_loop user_name stockfish_path games_data games1 b)
      end.
Proof.
  induction games1 as [| g games1 IH]; intros b Hb; cbn [app games_loop].
  - now rewrite Hb.
  - cbv zeta.
    destruct (failure (process_game _ _ _ b g)) as [e |] eqn:Hf.
    + now rewrite Hf.
    + now apply IH.
Qed.

Lemma games_loop_count (user_name : str) (stockfish_path : string)
    (games_data : list str) (games : list GameRecord) :
  forall b,
    failure b = None ->
    let b' := games_loop user_name stockfish_path games_data games b in
    (length (rows b') - length (rows b) = game_count b' - game_count b)%nat
    /\ (game_count b <= game_count b')%nat
    /\ (length (rows b) <= length (rows b'))%nat
    /\ (failure b' = None ->
        game_count b' = (game_count b + length games)%nat)
    /\ (failure b' <> None ->
        (game_count b' < game_count b + length games)%nat).
Proof.
  induction games as [| g games IH]; intros b Hb; cbn [games_loop length].
  - cbv zeta. rewrite Hb. repeat split; try lia. congruence.
  - cbv zeta.
    pose proof (process_game_cases user_name stockfish_path games_data b g)
      as Hcases. cbv zeta in Hcases.
    destruct Hcases as [(Hf & Hc & row & Hr) | (Hf & Hc & Hr)].
    + rewrite Hf. specialize (IH _ Hf). cbv zeta in IH.
      destruct IH as (I1 & I2 & I3 & I4 & I5).
      rewrite Hr, length_app in I1, I3. cbn [length] in I1, I3.
      rewrite Hc in I1, I2, I4, I5.
      repeat split; try lia.
      * intros H. specialize (I4 H). lia.
      * intros H. specialize (I5 H). lia.
    + destruct (failure (process_game _ _ _ b g)) as [e |] eqn:He;
        [| congruence].
      rewrite Hr, Hc. repeat split; try lia. congruence.
Qed.

(** X13. The data rows written are as many as the counter says, and the
    file has one row more, the header row.  The counter never exceeds the
    number of games, and it reaches it exactly when no exception ended the
    loop: a game that fails gets no row and is not counted. *)
Theorem rows_follow_game_count (user_name : str) (stockfish_path : string)
    (txt : str) (games : list GameRecord) (p : Proc) (w : Web) :
  length (rows (parse_games user_name stockfish_path txt games p w))
  = game_count (parse_games user_name stockfish_path txt games p w)
  /\ length (csv_rows (parse_games user_name stockfish_path txt games p w))
     = S (game_count (parse_games user_name stockfish_path txt games p w))
  /\ (game_count (parse_games user_name stockfish_path txt games p w)
      <= length games)%nat
  /\ (failure (parse_games user_name stockfish_path txt games p w) = None
      <-> game_count (parse_games user_name stockfish_path txt games p w)
          = length games).
Proof.
  unfold parse_games, csv_rows.
  pose proof (games_loop_count user_name stockfish_path
                (Games.games_data_of txt) games (start p w) eq_refl) as H.
  cbv zeta in H. cbn [start rows game_count length] in H.
  destruct H as (H1 & _ & _ & H4 & H5).
  destruct (failure (games_loop _ _ _ games (start p w))) as [e |] eqn:Hf.
  - assert (Hlt := H5 ltac:(discriminate)).
    cbn [length]. split; [lia |]. split; [lia |]. split; [lia |].
    split; [discriminate | intros Heq; lia].
  - specialize (H4 eq_refl). cbn [length].
    split; [lia |]. split; [lia |]. split; [lia |].
    split; [intros _; lia | reflexivity].
Qed.

(** X14. Once a game has failed, nothing that follows in the PGN file
    matters: the result for the games up to and including the failing one is
    the result for the whole file.  No later game is analysed, no later title
    is fetched, no later row is written. *)
Theorem failed_game_ends_batch (user_name : str) (stockfish_path : string)
    (txt : str) (games later : list GameRecord) (p : Proc) (w : Web)
    (e : batch_exn) :
  failure (parse_games user_name stockfish_path txt games p w) = Some e ->
  parse_games user_name stockfish_path txt (games ++ later) p w
  = parse_games user_name stockfish_path txt games p w.
Proof.
  unfold parse_games. intros Hf.
  rewrite games_loop_app by reflexivity. now rewrite Hf.
Qed.

(** X15. A game without moves ends the batch.  When the games before it
    were written without an exception, the file keeps exactly their rows: the
    game itself gets no row, no title is fetched for it, and the loop ends
    with an exception, which is the one of [analyze_game] whenever the
    [.txt] file has a record for the game. *)
Theorem game_without_moves_ends_batch (user_name : str)
    (stockfish_path : string) (txt : str) (before later : list GameRecord)
    (g : GameRecord) (p : Proc) (w : Web) :
  failure (parse_games user_name stockfish_path txt before p w) = None ->
  mainline_moves (record_game g) = [] ->
  rows (parse_games user_name stockfish_path txt (before ++ g :: later) p w)
  = rows (parse_games user_name stockfish_path txt before p w)
  /\ fetched
       (parse_games user_name stockfish_path txt (before ++ g :: later) p w)
     = fetched (parse_games user_name stockfish_path txt before p w)
  /\ failure
       (parse_games user_name stockfish_path txt (before ++ g :: later) p w)
     <> None
  /\ ((length before < length (Games.games_data_of txt))%nat ->
      exists e,
        failure
          (parse_games user_name stockfish_path txt (before ++ g :: later)
             p w)
        = Some (AnalysisError e)).
Proof.
  unfold parse_games. intros Hf Hmoves.
  pose proof (games_loop_count user_name stockfish_path
                (Games.games_data_of txt) before (start p w) eq_refl) as Hc.
  cbv zeta in Hc. destruct Hc as (_ & _ & _ & Hcount & _).
  specialize (Hcount Hf). cbn [start game_count] in Hcount.
  rewrite games_loop_app by reflexivity. rewrite Hf.
  set (gd := Games.games_data_of txt) in *.
  set (b := games_loop user_name stockfish_path gd before (start p w)) in *.
  assert (Hg : rows (process_game user_name stockfish_path gd b g) = rows b
               /\ fetched (process_game user_name stockfish_path gd b g)
                  = fetched b
               /\ failure (process_game user_name stockfish_path gd b g)
                  <> None
               /\ ((length before < length gd)%nat ->
                   exists e,
                     failure (process_game user_name stockfish_path gd b g)
                     = Some (AnalysisError e))).
  { unfold process_game.
    destruct (nth_error gd (game_count b)) as [data |] eqn:Hdata.
    - destruct (Accuracy.accuracies_of data) as [wa ba]. cbv zeta.
      destruct (no_moves_no_result (record_game g) stockfish_path (engine b)
                  Hmoves) as [e He].
      rewrite He. cbn [fail rows fetched failure].
      split; [reflexivity |]. split; [reflexivity |].
      split; [discriminate | eauto].
    - cbn [fail rows fetched failure].
      split; [reflexivity |]. split; [reflexivity |].
      split; [discriminate |].
      intros Hlen. apply nth_error_None in Hdata. lia. }
  cbn [games_loop]. cbv zeta.
  destruct (failure (process_game user_name stockfish_path gd b g))
    as [e |] eqn:He; [| destruct Hg as (_ & _ & Hne & _); congruence].
  rewrite He. exact Hg.
Qed.

(** X16. A game for which the [.txt] file has no record ends the batch with
    an [IndexError] before anything is done for it: the engine is not started
    and the state is the one the games before it left, but for the
    exception. *)
Theorem missing_record_ends_batch (user_name : str) (stockfish_path : string)
    (txt : str) (before later : list GameRecord) (g : GameRecord)
    (p : Proc) (w : Web) :
  failure (parse_games user_name stockfish_path txt before p w) = None ->
  (length (Games.games_data_of txt) <= length before)%nat ->
  parse_games user_name stockfish_path txt (before ++ g :: later) p w
  = fail (parse_games user_name stockfish_path txt before p w)
      BatchIndexError.
Proof.
  unfold parse_games. intros Hf Hlen.
  pose proof (games_loop_count user_name stockfish_path
                (Games.games_data_of txt) before (start p w) eq_refl) as Hc.
  cbv zeta in Hc. destruct Hc as (_ & _ & _ & Hcount & _).
  specialize (Hcount Hf). cbn [start game_count] in Hcount.
  rewrite games_loop_app by reflexivity. rewrite Hf.
  set (gd := Games.games_data_of txt) in *.
  set (b := games_loop user_name stockfish_path gd before (start p w)) in *.
  assert (Hg : process_game user_name stockfish_path gd b g
               = fail b BatchIndexError).
  { unfold process_game.
    destruct (nth_error gd (game_count b)) as [data |] eqn:Hdata;
      [| reflexivity].
    assert (Hsome : nth_error gd (game_count b) <> None) by congruence.
    apply nth_error_Some in Hsome. lia. }
  cbn [games_loop]. cbv zeta. rewrite Hg. reflexivity.
Qed.

End BatchFacts.

(** * [download_and_merge_game_files.py]: proofs *)

Section WrittenRows.
Context {L : ChessLib} {T : TitleLib}.
Import PyStr Report.

(** What went well when a game got its row. *)
Lemma process_game_written (user_name : str) (stockfish_path : string)
    (games_data : list str) (b : Batch) (g : GameRecord) :
  failure (process_game user_name stockfish_path games_data b g) = None ->
  exists data analysis url w' title row,
    nth_error games_data (game_count b) = Some data
    /\ outcome (analyze_game (record_game g) stockfish_path (engine b))
       = inr analysis
    /\ eco_url (record_headers g) = inr url
    /\ lib_title url (web b) = (w', inr title)
    /\ finish_row user_name (header_cells (record_headers g))
         (Opening.opening_names title) analysis
         (fst (Accuracy.accuracies_of data))
         (snd (Accuracy.accuracies_of data))
       = inr row
    /\ rows (process_game user_name stockfish_path games_data b g)
       = rows b ++ [row].
Proof.
  unfold process_game.
  destruct (nth_error games_data (game_count b)) as [data |] eqn:Hdata;
    [| discriminate].
  destruct (Accuracy.accuracies_of data) as [wa ba] eqn:Hacc.
  cbv zeta.
  destruct (outcome (analyze_game _ _ _)) as [e | analysis] eqn:Hres;
    [discriminate |].
  destruct (eco_url (record_headers g)) as [err | url] eqn:Hurl;
    [discriminate |].
  cbn [web].
  destruct (lib_title url (web b)) as [w' [e | title]] eqn:Htitle;
    [discriminate |].
  destruct (finish_row _ _ _ _ _ _) as [err | row] eqn:Hrow;
    [discriminate |].
  intros _. exists data, analysis, url, w', title, row.
  rewrite Hacc. cbn [fst snd rows]. repeat split; try assumption; reflexivity.
Qed.

Lemma short_headers_no_url (header_values : list str) :
  (length header_values < 11)%nat <-> eco_url header_values = inl IndexError.
Proof.
  unfold eco_url. split.
  - intros Hlen.
    destruct (nth_error header_values 10) eqn:Hn; [| reflexivity].
    assert (nth_error header_values 10 <> None) as Hsome by congruence.
    apply nth_error_Some in Hsome. lia.
  - destruct (nth_error header_values 10) eqn:Hn; [discriminate |].
    intros _. apply nth_error_None in Hn. lia.
Qed.

(** X8. A game gets a row only if it has at least eleven header values:
    with fewer, [row_data[10]] raises [IndexError], the body of the loop
    fails and no row is written.  A row that is written has 14 cells more
    than the game has header values, and one more when a result word is
    appended; the total number of moves that [analyze_game] returned follows
    the three names and the word.  With the 21 header values the header row
    is written for, the row has the 36 cells of the header row when a word
    is appended, and otherwise 35, with the total number of moves in the
    column headed [Win-Loss-Draw]. *)
Theorem finish_row_columns (user_name : str) (stockfish_path : string)
    (games_data : list str) (b : Batch) (g : GameRecord) :
  let b' := process_game user_name stockfish_path games_data b g in
  ((length (record_headers g) < 11)%nat ->
   failure b' <> None /\ rows b' = rows b)
  /\ (failure b' = None ->
      (11 <= length (record_headers g))%nat
      /\ exists url w' title word row wm wb bm bb n,
           eco_url (record_headers g) = inr url
           /\ lib_title url (web b) = (w', inr title)
           /\ outcome
                (analyze_game (record_game g) stockfish_path (engine b))
              = inr (wm, wb, bm, bb, n)
           /\ win_loss_draw user_name
                (header_cells (record_headers g)
                 ++ [CStr (fst (fst (Opening.opening_names title)));
                     CStr (snd (fst (Opening.opening_names title)));
                     CStr (snd (Opening.opening_names title))])
              = inr word
           /\ rows b' = rows b ++ [row]
           /\ length row
              = (length (record_headers g) + 14 + word_cells word)%nat
           /\ nth_error row
                (length (record_headers g) + 3 + word_cells word)
              = Some (CInt n)
           /\ (length (record_headers g) = 21%nat ->
               match word with
               | Some _ =>
                   length row = length csv_headers
                   /\ nth_error row 25 = Some (CInt n)
               | None =>
                   S (length row) = length csv_headers
                   /\ nth_error row 24 = Some (CInt n)
               end))
  /\ length csv_headers = 36%nat
  /\ nth_error csv_headers 24 = Some (py "Win-Loss-Draw")
  /\ nth_error csv_headers 25 = Some (py "Total Moves").
Proof.
  cbv zeta. split; [| split; [| repeat split]].
  - intros Hshort.
    destruct (process_game_cases user_name stockfish_path games_data b g)
      as [(Hnone & _) | (Hfail & _ & Hrows)]; [| now split].
    destruct (process_game_written _ _ _ _ _ Hnone)
      as (_ & _ & url & _ & _ & _ & _ & _ & Hurl & _).
    apply short_headers_no_url in Hshort. congruence.
  - intros Hnone.
    destruct (process_game_written _ _ _ _ _ Hnone)
      as (data & [[[[wm wb] bm] bb] n] & url & w' & title & row
          & _ & Hres & Hurl & Htitle & Hrow & Hrows).
    assert (Hlen : (11 <= length (record_headers g))%nat).
    { destruct (Nat.lt_ge_cases (length (record_headers g)) 11) as [H | H];
        [| exact H].
      apply short_headers_no_url in H. congruence. }
    split; [exact Hlen |].
    destruct (finish_row_shape _ _ _ _ _ _ _ _ _ _ _ Hrow)
      as (word & Hword & ->).
    exists url, w', title, word. eexists. exists wm, wb, bm, bb, n.
    repeat match goal with |- _ /\ _ => split end;
      try eassumption.
    + rewrite !length_app. unfold header_cells. rewrite length_map.
      destruct word; cbn [length word_cells]; lia.
    + rewrite nth_error_app2;
        rewrite !length_app; unfold header_cells; rewrite length_map;
        destruct word; cbn [length word_cells];
        try lia.
      * replace (_ - _)%nat with 0%nat by lia. reflexivity.
      * replace (_ - _)%nat with 0%nat by lia. reflexivity.
    + intros H21.
      assert (Hn : forall k,
                k = (length (record_headers g) + 3 + word_cells word)%nat ->
                nth_error
                  ((header_cells (record_headers g)
                    ++ [CStr (fst (fst (Opening.opening_names title)));
                        CStr (snd (fst (Opening.opening_names title)));
                        CStr (snd (Opening.opening_names title))]
                    ++ match word with
                       | Some w => [CStr w]
                       | None => []
                       end)
                   ++ [CInt n; CStr (fst (Accuracy.accuracies_of data));
                       CStr (snd (Accuracy.accuracies_of data));
                       len bb; len bm; len wb; len wm;
                       first_or_empty bb; first_or_empty bm;
                       first_or_empty wb; first_or_empty wm]) k
                = Some (CInt n)).
      { intros k ->. rewrite nth_error_app2;
          rewrite !length_app; unfold header_cells; rewrite length_map;
          destruct word; cbn [length word_cells]; try lia;
          replace (_ - _)%nat with 0%nat by lia; reflexivity. }
      destruct word; (split; [| apply Hn; cbn [word_cells]; lia]);
        rewrite !length_app; unfold header_cells; rewrite length_map, H21;
        reflexivity.
Qed.

(** X9. The row of a game ends with eleven cells taken from the tuple that
    [analyze_game] returned and from the record of the game in the [.txt]
    file: the total number of moves, which is [ceil(plies / 2)], the two
    accuracies, the lengths of [black_blunders], [black_mistakes],
    [white_blunders] and [white_mistakes] in this order, and the first entry
    of each of these lists in the same order, the empty string standing for
    a list without entry.  Before them come the header values of the game
    and three or four more cells.  The four counts add up to at most one
    less than the number of plies, and a first-entry cell is empty exactly
    when its count is 0 and otherwise holds a move number between 1 and the
    total. *)
Theorem row_of_completed_analysis (user_name : str)
    (stockfish_path : string) (games_data : list str) (b : Batch)
    (g : GameRecord) :
  failure (process_game user_name stockfish_path games_data b g) = None ->
  exists data wm wb bm bb total front,
    let plies := Z.of_nat (length (mainline_moves (record_game g))) in
    nth_error games_data (game_count b) = Some data
    /\ outcome (analyze_game (record_game g) stockfish_path (engine b))
       = inr (wm, wb, bm, bb, total)
    /\ rows (process_game user_name stockfish_path games_data b g)
       = rows b
         ++ [front
             ++ [CInt total;
                 CStr (fst (Accuracy.accuracies_of data));
                 CStr (snd (Accuracy.accuracies_of data));
                 CInt (Z.of_nat (length bb)); CInt (Z.of_nat (length bm));
                 CInt (Z.of_nat (length wb)); CInt (Z.of_nat (length wm));
                 first_or_empty bb; first_or_empty bm;
                 first_or_empty wb; first_or_empty wm]]
    /\ firstn (length (record_headers g)) front
       = header_cells (record_headers g)
    /\ (length (record_headers g) + 3 <= length front
        <= length (record_headers g) + 4)%nat
    /\ total = Qceiling (inject_Z plies / inject_Z 2)
    /\ Z.of_nat (length bb) + Z.of_nat (length bm) + Z.of_nat (length wb)
       + Z.of_nat (length wm) <= plies - 1
    /\ first_cell_ok total (Z.of_nat (length bb)) (first_or_empty bb)
    /\ first_cell_ok total (Z.of_nat (length bm)) (first_or_empty bm)
    /\ first_cell_ok total (Z.of_nat (length wb)) (first_or_empty wb)
    /\ first_cell_ok total (Z.of_nat (length wm)) (first_or_empty wm).
Proof.
  intros Hnone.
  destruct (process_game_written _ _ _ _ _ Hnone)
    as (data & [[[[wm wb] bm] bb] n] & url & w' & title & row
        & Hdata & Hres & _ & _ & Hrow & Hrows).
  destruct (finish_row_shape _ _ _ _ _ _ _ _ _ _ _ Hrow)
    as (word & _ & ->).
  destruct (analysis_cells _ _ _ _ _ _ _ _ Hres)
    as (Hn & Hsum & C1 & C2 & C3 & C4).
  exists data, wm, wb, bm, bb, n. eexists. cbv zeta.
  split; [exact Hdata |]. split; [exact Hres |].
  split; [exact Hrows |].
  split.
  { rewrite firstn_app.
    replace (length (record_headers g)
             - length (header_cells (record_headers g)))%nat with 0%nat
      by (unfold header_cells; rewrite length_map; lia).
    cbn [firstn]. rewrite app_nil_r.
    replace (length (record_headers g))
      with (length (header_cells (record_headers g))) at 1
      by (unfold header_cells; now rewrite length_map).
    apply firstn_all. }
  split.
  { rewrite !length_app. unfold header_cells. rewrite length_map.
    destruct word; cbn [length]; lia. }
  repeat split; assumption.
Qed.

End WrittenRows.

Section ListingFacts.
Import PyStr PyStrFacts OsPath Listing.

Lemma split_last_dot_none (s : str) :
  has dot_char s = false -> split_last_dot s = None.
Proof.
  induction s as [| c s IH]; intros H; [reflexivity |].
  apply has_cons_false in H. destruct H as [Hc H].
  cbn. rewrite (IH H), N.eqb_sym, Hc. reflexivity.
Qed.

Lemma split_last_dot_app (a ext : str) :
  has dot_char ext = false ->
  split_last_dot (a ++ dot_char :: ext) = Some (a, dot_char :: ext).
Proof.
  intros H. induction a as [| c a IH].
  - cbn. now rewrite (split_last_dot_none ext H).
  - cbn [app split_last_dot]. now rewrite IH.
Qed.

Lemma split_last_dot_parts (p a e : str) :
  split_last_dot p = Some (a, e) -> p = a ++ e.
Proof.
  revert a e. induction p as [| c p IH]; intros a e; [discriminate |].
  cbn. destruct (split_last_dot p) as [[a' e'] |].
  - intros [= <- <-]. cbn. now rewrite (IH a' e' eq_refl).
  - destruct (c =? dot_char)%N; [| discriminate].
    intros [= <- <-]. reflexivity.
Qed.

Lemma eqb_true (a b : str) : eqb a b = true <-> a = b.
Proof.
  revert b. induction a as [| x a IH]; intros [| y b]; cbn;
    try (split; discriminate); [tauto |].
  rewrite andb_true_iff, N.eqb_eq, IH.
  split; [intros [-> ->]; reflexivity | intros [= -> ->]; auto].
Qed.

(** The extension of a name is [.ext] exactly when the name is a stem other
    than dots, a dot and [ext]. *)
Lemma splitext_named (ext item : str) :
  has dot_char ext = false ->
  snd (splitext item) = dot_char :: ext <-> named ext item.
Proof.
  intros Hext. unfold splitext, named. split.
  - destruct (split_last_dot item) as [[a e] |] eqn:Hs; [| discriminate].
    destruct (forallb _ a) eqn:Ha; [discriminate |].
    cbn. intros ->. exists a. split; [| exact Ha].
    exact (split_last_dot_parts _ _ _ Hs).
  - intros (stem & -> & Hstem).
    now rewrite (split_last_dot_app stem ext Hext), Hstem.
Qed.

Lemma sort_items_filter (listing : list (str * bool)) :
  forall txt pgn,
    fold_left sort_item listing (txt, pgn)
    = (txt ++ filter (fun item => eqb (snd (splitext item)) (py ".txt"))
                (map fst (filter snd listing)),
       pgn ++ filter (fun item => eqb (snd (splitext item)) (py ".pgn"))
                (map fst (filter snd listing))).
Proof.
  induction listing as [| [item isfile] listing IH]; intros txt pgn.
  - cbn. now rewrite !app_nil_r.
  - cbn [fold_left sort_item filter snd].
    destruct isfile; [| apply IH].
    cbn [map fst filter].
    destruct (eqb (snd (splitext item)) (py ".txt")) eqn:Et.
    + assert (Ep : eqb (snd (splitext item)) (py ".pgn") = false).
      { apply eqb_true in Et. rewrite Et. reflexivity. }
      rewrite Ep, IH, <- app_assoc. reflexivity.
    + destruct (eqb (snd (splitext item)) (py ".pgn"));
        rewrite IH, <- ?app_assoc; reflexivity.
Qed.

(** X10. For a directory that can be listed, the two lists are the names of
    the regular files with the extension [.txt] and with the extension
    [.pgn], each in the order of the listing.  A name is in the first list
    exactly when it is listed as a regular file and is a stem that is not
    made of dots only followed by [.txt], likewise for [.pgn]; so
    directories and names such as [.txt] are left out, and no name is in
    both lists. *)
Theorem filenames_by_extension (E : Type) (listing : list (str * bool))
    (txt pgn : list str) :
  get_txt_and_pgn_filenames (E := E) (Present (inr listing)) = inr (txt, pgn)
  ->
  txt = filter (fun item => eqb (snd (splitext item)) (py ".txt"))
          (map fst (filter snd listing))
  /\ pgn = filter (fun item => eqb (snd (splitext item)) (py ".pgn"))
             (map fst (filter snd listing))
  /\ (forall item,
        In item txt <-> In (item, true) listing /\ named (py "txt") item)
  /\ (forall item,
        In item pgn <-> In (item, true) listing /\ named (py "pgn") item)
  /\ (forall item, In item txt -> ~ In item pgn).
Proof.
  unfold get_txt_and_pgn_filenames. rewrite sort_items_filter. cbn [app].
  intros [= <- <-].
  assert (Hfiles : forall item,
            In item (map fst (filter snd listing)) <-> In (item, true) listing).
  { intros item. rewrite in_map_iff. split.
    - intros ([i b] & <- & Hin). apply filter_In in Hin.
      destruct Hin as [Hin Hb]. cbn in Hb. now subst.
    - intros Hin. exists (item, true). split; [reflexivity |].
      apply filter_In. auto. }
  assert (Hin : forall ext item,
            has dot_char ext = false ->
            In item (filter (fun i => eqb (snd (splitext i)) (dot_char :: ext))
                       (map fst (filter snd listing)))
            <-> In (item, true) listing /\ named ext item).
  { intros ext item Hext.
    rewrite filter_In, Hfiles, eqb_true, (splitext_named ext item Hext).
    reflexivity. }
  split; [reflexivity |]. split; [reflexivity |].
  split; [intros item; exact (Hin (py "txt") item eq_refl) |].
  split; [intros item; exact (Hin (py "pgn") item eq_refl) |].
  intros item Ht Hp. apply filter_In in Ht, Hp.
  destruct Ht as [_ Ht], Hp as [_ Hp].
  apply eqb_true in Ht, Hp. rewrite Ht in Hp. discriminate Hp.
Qed.

End ListingFacts.

Section MergeFacts.
Import PyStr Merge.
Context {F : FileLib}.

Lemma written_app (a b : list FEvent) :
  written (a ++ b) = written a ++ written b.
Proof.
  apply flat_map_app.
Qed.

Lemma echo_app (a b : list FEvent) : echo (a ++ b) = echo a ++ echo b.
Proof.
  apply flat_map_app.
Qed.

Lemma errors_app (a b : list FEvent) : errors (a ++ b) = errors a ++ errors b.
Proof.
  apply flat_map_app.
Qed.

Lemma opened_app (a b : list FEvent) : opened (a ++ b) = opened a ++ opened b.
Proof.
  apply flat_map_app.
Qed.

Lemma last_error_app (a b : list FEvent) :
  last_error (a ++ b)
  = match last_error b with
    | Some e => Some e
    | None => last_error a
    end.
Proof.
  unfold last_error. rewrite errors_app, rev_app_distr.
  destruct (rev (errors b)); reflexivity.
Qed.

Lemma copied_written (infile : Infile) (outfile : Outfile) (lines : list str) :
  written (copied infile outfile lines) = lines
  /\ echo (copied infile outfile lines) = lines
  /\ errors (copied infile outfile lines) = []
  /\ opened (copied infile outfile lines) = []
  /\ forallb benign (copied infile outfile lines) = true.
Proof.
  induction lines as [| s lines (I1 & I2 & I3 & I4 & I5)];
    [repeat split |].
  change (copied infile outfile (s :: lines))
    with ([ENext infile (inr (Some s)); EWrite outfile s (inr tt)]
          ++ copied infile outfile lines).
  rewrite written_app, echo_app, errors_app, opened_app, forallb_app.
  rewrite I1, I2, I3, I4, I5. repeat split.
Qed.

(** How the copy of the lines of a file can go. *)
Lemma copy_lines_shape (fuel : nat) (infile : Infile) (outfile : Outfile) :
  forall d,
    exists lines tail,
      calls (copy_lines fuel infile outfile d)
      = copied infile outfile lines ++ tail
      /\ ((ending (copy_lines fuel infile outfile d) = Returns tt
           /\ tail = [ENext infile (inr None)])
          \/ (exists e,
                ending (copy_lines fuel infile outfile d) = Raises e
                /\ tail = [ENext infile (inl e)])
          \/ (exists e s,
                ending (copy_lines fuel infile outfile d) = Raises e
                /\ tail = [ENext infile (inr (Some s));
                           EWrite outfile s (inl e)])
          \/ (ending (copy_lines fuel infile outfile d) = OutOfFuel
              /\ tail = [])).
Proof.
  induction fuel as [| fuel IH]; intros d.
  - exists [], []. cbn. split; [reflexivity |]. do 3 right. now split.
  - cbn [copy_lines]. unfold fbind, call, fret.
    destruct (lib_next infile d) as [d1 [e | [s |]]]; cbn [ending disk calls].
    + exists [], [ENext infile (inl e)]. split; [reflexivity |].
      right. left. exists e. now split.
    + destruct (lib_write outfile s d1) as [d2 [e | []]];
        cbn [ending disk calls].
      * exists [], [ENext infile (inr (Some s)); EWrite outfile s (inl e)].
        split; [reflexivity |]. right. right. left. exists e, s. now split.
      * destruct (IH d2) as (lines & tail & Hc & Hcases).
        exists (s :: lines), tail. rewrite Hc. split; [reflexivity |].
        exact Hcases.
    + exists [], [ENext infile (inr None)]. split; [reflexivity |].
      left. now split.
Qed.

Lemma last_error_copied (infile : Infile) (outfile : Outfile)
    (lines : list str) (tr : list FEvent) :
  last_error (copied infile outfile lines ++ tr) = last_error tr.
Proof.
  unfold last_error. rewrite errors_app.
  destruct (copied_written infile outfile lines) as (_ & _ & -> & _).
  reflexivity.
Qed.

Lemma echo_copied (infile : Infile) (outfile : Outfile) (lines : list str)
    (tr : list FEvent) :
  written tr = echo tr ->
  written (copied infile outfile lines ++ tr)
  = echo (copied infile outfile lines ++ tr).
Proof.
  intros H. rewrite written_app, echo_app, H.
  destruct (copied_written infile outfile lines) as (-> & -> & _).
  reflexivity.
Qed.

Lemma opened_copied (infile : Infile) (outfile : Outfile) (lines : list str)
    (tr : list FEvent) :
  opened (copied infile outfile lines ++ tr) = opened tr.
Proof.
  rewrite opened_app.
  destruct (copied_written infile outfile lines) as (_ & _ & _ & -> & _).
  reflexivity.
Qed.

Lemma benign_copied (infile : Infile) (outfile : Outfile) (lines : list str)
    (tr : list FEvent) :
  forallb benign (copied infile outfile lines ++ tr) = forallb benign tr.
Proof.
  rewrite forallb_app.
  destruct (copied_written infile outfile lines) as (_ & _ & _ & _ & ->).
  reflexivity.
Qed.

Lemma around_copied (x : FEvent) (infile : Infile) (outfile : Outfile)
    (lines : list str) (rest : list FEvent) :
  let tr := (x :: copied infile outfile lines) ++ rest in
  written tr = written [x] ++ lines ++ written rest
  /\ echo tr = echo [x] ++ lines ++ echo rest
  /\ opened tr = opened [x] ++ opened rest
  /\ forallb benign tr = benign x && forallb benign rest
  /\ last_error tr
     = match last_error rest with
       | Some e => Some e
       | None => last_error [x]
       end.
Proof.
  cbv zeta.
  change ((x :: copied infile outfile lines) ++ rest)
    with ([x] ++ copied infile outfile lines ++ rest).
  rewrite written_app, echo_app, opened_app, forallb_app, last_error_app.
  rewrite last_error_copied, opened_copied, benign_copied.
  rewrite written_app, echo_app.
  destruct (copied_written infile outfile lines) as (-> & -> & _).
  cbn [forallb]. rewrite andb_true_r. repeat split.
Qed.

Ltac settle infile outfile lines :=
  cbn [ending disk calls app]; rewrite <- ?app_assoc;
  change (?x :: ?a ++ ?b) with ((x :: a) ++ b);
  match goal with
  | |- context [(?x :: copied infile outfile lines) ++ ?rest] =>
      destruct (around_copied x infile outfile lines rest)
        as (-> & -> & -> & -> & ->)
  end;
  repeat split; try reflexivity;
  let Hb := fresh "Hb" in
  let Hf := fresh "Hf" in
  intros Hb Hf; cbn in Hb, Hf;
  first [ discriminate Hb
        | discriminate Hf
        | right; split; [reflexivity | exists infile, lines; reflexivity] ].

(** One file: what is written is what was read, the exception that leaves
    is the last one raised, and when nothing goes wrong the file is either
    not found or copied to its end and closed. *)
Lemma copy_file_facts (fuel : nat) (name : str) (outfile : Outfile)
    (d : Disk) :
  let r := copy_file fuel name outfile d in
  written (calls r) = echo (calls r)
  /\ last_error (calls r)
     = match ending r with
       | Raises e => Some e
       | _ => None
       end
  /\ opened (calls r) = [name]
  /\ (forallb benign (calls r) = true ->
      finished r = true ->
      (ending r = Raises FileNotFoundError
       /\ calls r = [EOpenR name (inl FileNotFoundError)])
      \/ (ending r = Returns tt
          /\ exists infile lines,
               calls r
               = EOpenR name (inr infile)
                 :: copied infile outfile lines
                 ++ [ENext infile (inr None);
                     EWrite outfile two_newlines (inr tt);
                     ECloseR infile (inr tt)])).
Proof.
  cbv zeta. unfold copy_file, finished, fbind, closing, call, fret.
  destruct (lib_open_r name d) as [d1 [e | infile]]; cbn [ending disk calls].
  { repeat split. intros Hb _. destruct e; [| discriminate].
    left. now split. }
  destruct (copy_lines_shape fuel infile outfile d1)
    as (lines & tail & Hc
        & [(He & ->) | [(e & He & ->) | [(e & s & He & ->) | (He & ->)]]]);
    rewrite ?He, ?Hc; cbn [ending disk calls].
  - destruct (lib_write outfile two_newlines _) as [d2 [e | []]];
      cbn [ending disk calls];
      destruct (lib_close_r infile _) as [d3 [e' | []]];
      settle infile outfile lines.
  - destruct (lib_close_r infile _) as [d3 [e' | []]];
      settle infile outfile lines.
  - destruct (lib_close_r infile _) as [d3 [e' | []]];
      settle infile outfile lines.
  - settle infile outfile lines.
Qed.

Lemma last_error_print (tr : list FEvent) (s : str) :
  last_error (tr ++ [EPrint s]) = last_error tr.
Proof.
  now rewrite last_error_app.
Qed.

Lemma try_copy_facts (fuel : nat) (path filename : str) (outfile : Outfile)
    (d : Disk) :
  let r := try_copy fuel path filename outfile d in
  written (calls r) = echo (calls r)
  /\ not_swallowed r
  /\ opened (calls r) = [infile_name path filename]
  /\ (forallb benign (calls r) = true ->
      finished r = true ->
      ending r = Returns tt
      /\ (calls r
          = [EOpenR (infile_name path filename) (inl FileNotFoundError);
             EPrint (not_found_message path filename)]
          \/ exists infile lines,
               calls r
               = EOpenR (infile_name path filename) (inr infile)
                 :: copied infile outfile lines
                 ++ [ENext infile (inr None);
                     EWrite outfile two_newlines (inr tt);
                     ECloseR infile (inr tt)])).
Proof.
  cbv zeta. unfold try_copy, not_swallowed, finished.
  pose proof (copy_file_facts fuel (infile_name path filename) outfile d)
    as (Hw & Hl & Ho & Hb).
  cbv zeta in Hb. unfold finished in Hb.
  destruct (ending (copy_file fuel (infile_name path filename) outfile d))
    as [[] | [| e] |] eqn:He; cbn [ending disk calls];
    rewrite ?He, ?written_app, ?echo_app, ?opened_app, ?last_error_print,
      ?Hw, ?Ho, ?Hl;
    (split; [reflexivity | split; [| split; [reflexivity |]]]).
  - discriminate.
  - intros Hben _. destruct (Hb Hben eq_refl) as [[Hx _] | [_ Hx]];
      [discriminate | now split; [| right]].
  - discriminate.
  - intros Hben _. rewrite forallb_app in Hben.
    apply andb_true_iff in Hben as [Hben _].
    destruct (Hb Hben eq_refl) as [[_ Hx] | [Hx _]]; [| discriminate].
    split; [reflexivity |]. left. now rewrite Hx.
  - split; eauto.
  - intros Hben _. destruct (Hb Hben eq_refl) as [[Hx _] | [Hx _]];
      discriminate.
  - discriminate.
  - intros _ Hf. discriminate Hf.
Qed.

Lemma merge_loop_facts (fuel : nat) (path : str) (outfile : Outfile)
    (file_list : list str) :
  forall d,
    let r := merge_loop fuel path file_list outfile d in
    written (calls r) = echo (calls r)
    /\ not_swallowed r
    /\ (ending r = Returns tt ->
        opened (calls r) = map (infile_name path) file_list)
    /\ (forallb benign (calls r) = true ->
        finished r = true ->
        ending r = Returns tt /\ merged outfile path file_list (calls r)).
Proof.
  induction file_list as [| filename rest IH]; intros d; cbv zeta.
  - unfold not_swallowed. cbn.
    split; [reflexivity | split; [discriminate | split; [reflexivity |]]].
    intros _ _. split; [reflexivity | constructor].
  - cbn [merge_loop map]. unfold fbind.
    pose proof (try_copy_facts fuel path filename outfile d)
      as (Hw & Hl & Ho & Hb).
    cbv zeta in Hb. unfold not_swallowed, finished in *.
    destruct (ending (try_copy fuel path filename outfile d))
      as [[] | e |] eqn:He; cbn [ending disk calls].
    + specialize (IH (disk (try_copy fuel path filename outfile d))).
      cbv zeta in IH. destruct IH as (Iw & Il & Io & Ib).
      set (r2 := merge_loop fuel path rest outfile
                   (disk (try_copy fuel path filename outfile d))) in *.
      rewrite written_app, echo_app, opened_app, last_error_app, forallb_app.
      rewrite Hw, Iw, Ho. split; [reflexivity |].
      split.
      { destruct (ending r2) as [[] | e |].
        - intros e'. destruct (last_error (calls r2)) eqn:Hr2;
            [apply Il | apply Hl].
        - destruct Il as [-> Hex]. now split.
        - intros e'. destruct (last_error (calls r2)) eqn:Hr2;
            [apply Il | apply Hl]. }
      split; [intros Hr; now rewrite (Io Hr) |].
      intros Hben Hfin. apply andb_true_iff in Hben as [Hb1 Hb2].
      destruct (Ib Hb2 Hfin) as [Hret Hm]. split; [exact Hret |].
      destruct (Hb Hb1 eq_refl) as [_ [-> | (infile & lines & ->)]].
      * now apply merged_missing.
      * cbn [app]. rewrite <- !app_assoc. now apply merged_file.
    + destruct Hl as [Hl Hex].
      split; [exact Hw | split; [now split | split; [discriminate |]]].
      intros Hben _. destruct (Hb Hben eq_refl) as [Hx _]. discriminate.
    + split; [exact Hw | split; [exact Hl | split; [discriminate |]]].
      intros _ Hf. discriminate Hf.
Qed.

Lemma merge_loop_stops (fuel : nat) (path : str) (outfile : Outfile)
    (files later : list str) :
  forall d,
    ending (merge_loop fuel path files outfile d) <> Returns tt ->
    merge_loop fuel path (files ++ later) outfile d
    = merge_loop fuel path files outfile d.
Proof.
  induction files as [| filename files IH]; intros d Hne.
  - now destruct Hne.
  - cbn [merge_loop app] in *. unfold fbind in *.
    destruct (ending (try_copy fuel path filename outfile d))
      as [[] | e |]; [| reflexivity | reflexivity].
    cbn [ending] in Hne. now rewrite (IH _ Hne).
Qed.


(** X12. An exception that leaves [merge_files] is the one of the last
    call that raised, and an exception other than [FileNotFoundError] is
    never held back: when the last call that raised did so with another
    exception, [merge_files] raises it.  When the loop over [files] does not
    come to its end, by an exception or by a file without end, the names
    after it are not looked at: [merge_files] does what it does on [files]
    alone, the closing of the output file included. *)
Theorem merge_files_stops (fuel : nat) (path : str) (files later : list str)
    (output_file : str) (d : Disk) :
  let r := merge_files fuel path files output_file d in
  (forall e, ending r = Raises e -> last_error (calls r) = Some e)
  /\ (forall e,
        last_error (calls r) = Some (Other e) -> ending r = Raises (Other e))
  /\ (forall outfile d1,
        lib_open_w output_file d = (d1, inr outfile) ->
        ending (merge_loop fuel path files outfile d1) <> Returns tt ->
        merge_files fuel path (files ++ later) output_file d = r).
Proof.
  cbv zeta.
  assert (Hstop : forall outfile d1,
            lib_open_w output_file d = (d1, inr outfile) ->
            ending (merge_loop fuel path files outfile d1) <> Returns tt ->
            merge_files fuel path (files ++ later) output_file d
            = merge_files fuel path files output_file d).
  { intros outfile d1 Hopen Hne. unfold merge_files, fbind, call.
    rewrite Hopen. cbn [ending disk calls]. unfold closing.
    now rewrite (merge_loop_stops fuel path outfile files later d1 Hne). }
  assert (Hlast : (forall e,
                     ending (merge_files fuel path files output_file d)
                     = Raises e ->
                     last_error
                       (calls (merge_files fuel path files output_file d))
                     = Some e)
                  /\ (forall e,
                        last_error
                          (calls (merge_files fuel path files output_file d))
                        = Some (Other e) ->
                        ending (merge_files fuel path files output_file d)
                        = Raises (Other e))).
  { unfold merge_files, fbind, closing, call.
    destruct (lib_open_w output_file d) as [d1 [e0 | outfile]];
      cbn [ending disk calls].
    { split; intros e; cbn; congruence. }
    pose proof (merge_loop_facts fuel path outfile files d1)
      as (_ & Hl & _).
    cbv zeta in Hl. unfold not_swallowed in Hl.
    set (r2 := merge_loop fuel path files outfile d1) in *.
    destruct (ending r2) as [[] | e2 |] eqn:He; cbn [ending disk calls].
    - destruct (lib_close_w outfile (disk r2)) as [d3 [e' | []]];
        cbn [ending disk calls app];
        change (?x :: ?a ++ ?b) with ([x] ++ a ++ b);
        rewrite !last_error_app.
      + split; intros e; cbn; congruence.
      + split; intros e; [discriminate |].
        change (last_error [ECloseW outfile (inr tt)])
          with (@None (Raised OsErr)).
        destruct (last_error (calls r2)) as [e1 |] eqn:H2.
        * intros [= ->]. now destruct (Hl e).
        * discriminate.
    - destruct Hl as [Hl _].
      destruct (lib_close_w outfile (disk r2)) as [d3 [e' | []]];
        cbn [ending disk calls app];
        change (?x :: ?a ++ ?b) with ([x] ++ a ++ b);
        rewrite !last_error_app.
      + split; intros e; cbn; congruence.
      + change (last_error [ECloseW outfile (inr tt)])
          with (@None (Raised OsErr)).
        rewrite Hl. split; intros e; congruence.
    - rewrite He. cbn [ending disk calls app].
      change (?x :: ?a) with ([x] ++ a). rewrite last_error_app.
      split; intros e; [discriminate |].
      destruct (last_error (calls r2)) as [e1 |] eqn:H2.
      + intros [= ->]. now destruct (Hl e).
      + discriminate. }
  split; [apply Hlast | split; [apply Hlast | exact Hstop]].
Qed.

End MergeFacts.

Section DownloadFacts.
Context {D : DiskLib}.
Import PyStr PyStrFacts.

Lemma count_app (f : DEvent -> bool) (a b : list DEvent) :
  count f (a ++ b) = (count f a + count f b)%nat.
Proof.
  unfold count. now rewrite filter_app, length_app.
Qed.

Lemma pgn_requests_app (a b : list DEvent) :
  pgn_requests (a ++ b) = pgn_requests a ++ pgn_requests b.
Proof.
  unfold pgn_requests. apply flat_map_app.
Qed.

(** What one month does, however it goes. *)
Ltac month_done :=
  repeat split; first [reflexivity | unfold count; cbn; lia].

Lemma month_cases (username year month output_dir : str) (w : World) :
  let r := try_except (month_body username year month output_dir) w in
  outcome r = inr tt
  /\ pgn_requests (trace r) = [pgn_url username year month]
  /\ count is_txt_get (trace r) = count is_pgn_ok (trace r)
  /\ (count is_write_pgn (trace r) <= count is_txt_ok (trace r))%nat
  /\ count is_write_txt (trace r) = count is_write_pgn_ok (trace r).
Proof.
  cbv zeta. unfold try_except, month_body.
  generalize (path_join output_dir (pgn_filename username year month)).
  generalize (path_join output_dir (txt_filename username year month)).
  generalize (txt_url username year month).
  generalize (pgn_url username year month).
  intros pu tu tf pf.
  unfold bind, io_call, ret.
  destruct (http_get pu w) as [w1 [e | pgn]]; cbn; [month_done |].
  destruct (http_get tu w1) as [w2 [e | txt]]; cbn; [month_done |].
  destruct (path_exists output_dir w2); cbn.
  - destruct (write_file pf pgn w2) as [w3 [e | []]]; cbn; [month_done |].
    destruct (write_file tf txt w3) as [w4 [e | []]]; cbn; month_done.
  - destruct (makedirs output_dir w2) as [w3 [e | []]]; cbn; [month_done |].
    destruct (write_file pf pgn w3) as [w4 [e | []]]; cbn; [month_done |].
    destruct (write_file tf txt w4) as [w5 [e | []]]; cbn; month_done.
Qed.

Lemma months_loop_cases (username year output_dir : str)
    (months : list str) :
  forall w,
    let r := months_loop username year months output_dir w in
    outcome r = inr tt
    /\ pgn_requests (trace r) = map (pgn_url username year) months
    /\ count is_txt_get (trace r) = count is_pgn_ok (trace r)
    /\ (count is_write_pgn (trace r) <= count is_txt_ok (trace r))%nat
    /\ count is_write_txt (trace r) = count is_write_pgn_ok (trace r).
Proof.
  induction months as [| month months IH]; intros w.
  - cbn. repeat split; lia.
  - cbn [months_loop map]. unfold bind.
    pose proof (month_cases username year month output_dir w) as Hm.
    cbv zeta in Hm. destruct Hm as (M1 & M2 & M3 & M4 & M5).
    rewrite M1.
    specialize (IH (proc (try_except
                            (month_body username year month output_dir) w))).
    cbv zeta in IH. destruct IH as (I1 & I2 & I3 & I4 & I5).
    cbn [outcome trace]. rewrite pgn_requests_app, !count_app, M2, I2.
    repeat split; try assumption; lia.
Qed.

(** X18. [download_pgns] never raises and returns [output_dir], whatever
    the network and the disk do.  It asks for the PGN address of every month,
    in the order of [months], also after a month has failed; it asks for the
    text address of a month only when the PGN request of that month
    succeeded, writes a PGN file only when both requests succeeded, and
    writes a text file only after the PGN file of the month was written. *)
Theorem download_pgns_goes_on (username email year output_dir : str)
    (months : list str) (w : World) :
  outcome (download_pgns username email year months output_dir w)
  = inr output_dir
  /\ pgn_requests
       (trace (download_pgns username email year months output_dir w))
     = map (pgn_url username year) months
  /\ count is_txt_get
       (trace (download_pgns username email year months output_dir w))
     = count is_pgn_ok
         (trace (download_pgns username email year months output_dir w))
  /\ (count is_write_pgn
        (trace (download_pgns username email year months output_dir w))
      <= count is_txt_ok
           (trace (download_pgns username email year months output_dir w)))%nat
  /\ count is_write_txt
       (trace (download_pgns username email year months output_dir w))
     = count is_write_pgn_ok
         (trace (download_pgns username email year months output_dir w)).
Proof.
  unfold download_pgns, bind, ret.
  pose proof (months_loop_cases username year output_dir months w) as H.
  cbv zeta in H. destruct H as (H1 & H2 & H3 & H4 & H5).
  rewrite H1. cbn [outcome trace]. rewrite app_nil_r. auto.
Qed.

(** X19. The names [download_pgns] gives its two files are names that
    [get_txt_and_pgn_filenames] keeps: listed as a file, the one ending in
    [.pgn] goes to the PGN list and the one ending in [.txt] to the text
    list, whatever the user name, the year and the month are, as long as they
    hold no path separator (so that the name is a file name). *)
Theorem downloads_are_listed (username year month : str)
    (txt_file_names pgn_file_names : list str) :
  OsPath.plain username = true ->
  OsPath.plain year = true ->
  OsPath.plain month = true ->
  Listing.sort_item (txt_file_names, pgn_file_names)
    (pgn_filename username year month, true)
  = (txt_file_names, pgn_file_names ++ [pgn_filename username year month])
  /\ Listing.sort_item (txt_file_names, pgn_file_names)
       (txt_filename username year month, true)
     = (txt_file_names ++ [txt_filename username year month],
        pgn_file_names).
Proof.
  intros _ _ _.
  assert (Hstem : forallb (fun c => (c =? OsPath.dot_char)%N)
                    (username ++ py "_" ++ year ++ py "_" ++ month) = false).
  { rewrite forallb_app. cbn [py forallb app].
    change (95 =? OsPath.dot_char)%N with false.
    cbn [andb]. apply andb_false_r. }
  assert (Hp : snd (OsPath.splitext (pgn_filename username year month))
               = py ".pgn").
  { apply (proj2 (splitext_named (py "pgn") _ eq_refl)).
    exists (username ++ py "_" ++ year ++ py "_" ++ month).
    split; [| exact Hstem].
    unfold pgn_filename. now rewrite <- !app_assoc. }
  assert (Ht : snd (OsPath.splitext (txt_filename username year month))
               = py ".txt").
  { apply (proj2 (splitext_named (py "txt") _ eq_refl)).
    exists (username ++ py "_" ++ year ++ py "_" ++ month).
    split; [| exact Hstem].
    unfold txt_filename. now rewrite <- !app_assoc. }
  unfold Listing.sort_item. rewrite Hp, Ht. split; reflexivity.
Qed.

End DownloadFacts.

(** * The added properties on sample data *)

Section ExtraScenarios.
Import PyStr Scripted Samples.
Local Open Scope string_scope.

(** X1 on the title in the docstring of [get_opening_name]. *)
Lemma opening_names_split_witness :
  Opening.opening_names pirc_title
  = (py "Pirc Defense: Classical, Quiet System", py "Pirc Defense",
     py "Classical, Quiet System").
Proof.
  exact (opening_names_split (py "Pirc Defense")
           (py " Classical, Quiet System") Opening.title_suffix
           eq_refl eq_refl eq_refl eq_refl).
Defined.

(** X2 on the title of an opening without a variation. *)
Lemma opening_names_no_colon_witness :
  Opening.opening_names sicilian_title
  = (py "Sicilian Defense", py "Sicilian Defense", []).
Proof.
  exact (opening_names_no_colon sicilian_title eq_refl).
Defined.

(** X3 on a record without accuracies. *)
Lemma accuracies_missing_witness :
  Accuracy.accuracies_of (py "pgn: 1. e4 e5, time_class: rapid, eco:")
  = ([], []).
Proof.
  exact (accuracies_missing (py "pgn: 1. e4 e5, time_class: rapid, eco:")
           eq_refl).
Defined.

(** X4 on a record with the accuracies 85.2 and 79.15. *)
Lemma accuracies_round_trip_witness :
  Accuracy.accuracies_of
    (py "pgn: 1. e4 e5, " ++ Accuracy.accuracies_key ++ py "85.2"
     ++ comma :: Accuracy.black_key ++ py "79.15" ++ rbrace :: py ", eco:")%list
  = (py "85.2", py "79.15").
Proof.
  exact (accuracies_round_trip (py "pgn: 1. e4 e5, ") (py "85.2")
           (py "79.15") (py ", eco:")
           eq_refl eq_refl eq_refl eq_refl eq_refl eq_refl eq_refl).
Defined.

(** X5 on the sample game: [alice] had White and won. *)
Lemma win_loss_draw_table_witness :
  Report.win_loss_draw (py "alice") (Report.header_cells header_values)
  = inr (Some (py "Win")).
Proof.
  apply (proj1 (win_loss_draw_table (py "alice") (py "alice") (py "bob")
                  (py "1-0") (Report.header_cells header_values)
                  eq_refl eq_refl eq_refl)).
  left. split; reflexivity.
Defined.

(** X6 on the five-ply scenario. *)
Lemma completed_analysis_calls_witness :
  exists tr,
    trace (run five_plies scenario)
    = (EPopen stockfish (inr tt) :: EConfigure 10 (inr tt)
       :: tr ++ [EQuit (inr tt)])%list
    /\ replay (L := lib any_move) [] five_plies tr
    /\ analyses tr = 5%nat.
Proof.
  exact (@completed_analysis_calls (lib any_move) (game_of five_plies)
           stockfish scenario ([], [2], [3], [], 3) eq_refl).
Defined.

(** X7 on the five-ply scenario. *)
Lemma returned_lists_are_ordered_witness :
  (forall l, In l [[]; [2]; [3]; []] ->
     StronglySorted Z.le l /\ forall x, In x l -> hd x l <= x)
  /\ (forall m : Z,
        (count_occ Z.eq_dec (@nil Z ++ [2%Z] ++ [3%Z] ++ [])%list m
         <= 2)%nat).
Proof.
  exact (@returned_lists_are_ordered (lib any_move) (game_of five_plies)
           stockfish scenario [] [2] [3] [] 3 eq_refl).
Defined.

(** X8 on the sample game, 21 header values and the user [alice]: the row
    has the 36 cells of the header row. *)
Lemma finish_row_columns_witness :
  (11 <= length (record_headers played))%nat
  /\ exists row,
       rows first_game = ([] ++ [row])%list
       /\ length row = length Report.csv_headers.
Proof.
  destruct (proj1 (proj2 (@finish_row_columns (lib any_move) web_lib
                            (py "alice") stockfish [record]
                            (@start (lib any_move) web_lib scenario tt)
                            played)) eq_refl)
    as (Hlen & url & w' & title & word & row & wm & wb & bm & bb & n
        & Hurl & Htitle & _ & Hword & Hrows & _ & _ & H21).
  split; [exact Hlen |]. exists row. split; [exact Hrows |].
  vm_compute in Hurl. injection Hurl as <-.
  vm_compute in Htitle. injection Htitle as <- <-.
  vm_compute in Hword. injection Hword as <-.
  exact (proj1 (H21 eq_refl)).
Defined.

(** X9 on the same game and the five-ply scenario: no Black blunder, a
    Black mistake at move 3, a White blunder at move 2, no White mistake. *)
Lemma row_of_completed_analysis_witness :
  exists front,
    rows first_game
    = ([] ++ [front
              ++ [Report.CInt 3; Report.CStr (py "85.2");
                  Report.CStr (py "79.15");
                  Report.CInt 0; Report.CInt 1; Report.CInt 1; Report.CInt 0;
                  Report.CStr []; Report.CInt 3; Report.CInt 2;
                  Report.CStr []]])%list.
Proof.
  destruct (@row_of_completed_analysis (lib any_move) web_lib (py "alice")
              stockfish [record]
              (@start (lib any_move) web_lib scenario tt) played eq_refl)
    as (data & wm & wb & bm & bb & total & front & Hdata & Hres & Hrows & _).
  cbn in Hdata. injection Hdata as <-.
  vm_compute in Hres. injection Hres as <- <- <- <- <-.
  exists front. exact Hrows.
Defined.

(** X10 on the sample directory. *)
Lemma filenames_by_extension_witness :
  [py "alice_2025_03.txt"; py "alice_2025_04.txt"]
  = filter
      (fun item => eqb (snd (OsPath.splitext item)) (py ".txt"))
      (map fst (filter snd listing))
  /\ In (py "alice_2025_03.pgn", true) listing
  /\ Listing.named (py "pgn") (py "alice_2025_03.pgn").
Proof.
  destruct (filenames_by_extension unit listing
              [py "alice_2025_03.txt"; py "alice_2025_04.txt"]
              [py "alice_2025_03.pgn"] eq_refl)
    as (Htxt & _ & _ & Hpgn & _).
  split; [exact Htxt |].
  apply (proj1 (Hpgn (py "alice_2025_03.pgn"))). left. reflexivity.
Defined.


(** The text that this run leaves in the output file of the sample disk. *)
Example merged_text :
  fst (Merge.disk (merge [py "a.txt"; py "gone.txt"; py "b.txt"]))
  = (py "first" ++ [newline] ++ py "game" ++ [newline; newline]
     ++ py "second" ++ [newline; newline; newline])%list.
Proof.
  reflexivity.
Qed.

(** X12 on a list with a file whose second line cannot be decoded: the
    exception leaves [merge_files] and the file after it is not opened. *)
Lemma merge_files_stops_witness :
  merge ([py "a.txt"; py "broken.txt"] ++ [py "b.txt"])%list
  = merge [py "a.txt"; py "broken.txt"]
  /\ Merge.ending (merge [py "a.txt"; py "broken.txt"])
     = @Merge.Raises disk_lib unit (Merge.Other tt)
  /\ fst (Merge.disk (merge [py "a.txt"; py "broken.txt"]))
     = (py "first" ++ [newline] ++ py "game" ++ [newline; newline]
        ++ py "third" ++ [newline])%list.
Proof.
  destruct (@merge_files_stops disk_lib 10 (py "pgn_downloads")
              [py "a.txt"; py "broken.txt"] [py "b.txt"]
              (py "pgn_downloads/combined_txt_file.txt")
              (py "old text", [])) as (_ & Hraise & Hstop).
  split; [| split; [exact (Hraise tt eq_refl) | reflexivity]].
  apply (Hstop tt ([], [])); [reflexivity |].
  vm_compute. discriminate.
Defined.

(** X14 on a file of three games whose second has no moves. *)
Lemma failed_game_ends_batch_witness :
  parse (record ++ record ++ record)%list ([played; aborted] ++ [played])%list
    (scenario ++ scenario)%list
  = parse (record ++ record ++ record)%list [played; aborted]
      (scenario ++ scenario)%list.
Proof.
  exact (@failed_game_ends_batch (lib any_move) web_lib (py "alice")
           stockfish (record ++ record ++ record)%list [played; aborted]
           [played] (scenario ++ scenario)%list tt
           (AnalysisError (UnboundLocalError "move_num")) eq_refl).
Defined.

(** X15 on the same file: the first game is written, the second is not. *)
Lemma game_without_moves_ends_batch_witness :
  rows (parse (record ++ record ++ record)%list
          ([played] ++ aborted :: [played])%list (scenario ++ scenario)%list)
  = [alice_row]
  /\ failure
       (parse (record ++ record ++ record)%list
          ([played] ++ aborted :: [played])%list (scenario ++ scenario)%list)
     = Some (AnalysisError (UnboundLocalError "move_num")).
Proof.
  destruct (@game_without_moves_ends_batch (lib any_move) web_lib
              (py "alice") stockfish (record ++ record ++ record)%list
              [played] [played] aborted (scenario ++ scenario)%list tt
              eq_refl eq_refl) as (Hrows & _ & _ & _).
  split; [exact Hrows | reflexivity].
Defined.

(** X16 on a [.txt] file with one record and a PGN file with two games. *)
Lemma missing_record_ends_batch_witness :
  parse record ([played] ++ played :: [])%list (scenario ++ scenario)%list
  = fail (parse record [played] (scenario ++ scenario)%list) BatchIndexError.
Proof.
  apply (@missing_record_ends_batch (lib any_move) web_lib (py "alice")
           stockfish record [played] [] played (scenario ++ scenario)%list
           tt eq_refl).
  vm_compute. lia.
Defined.

(** X17 on a text of two records between brackets. *)
Lemma games_data_are_the_records_witness :
  Games.games_data_of
    (Games.records_text
       [(py "[{", py "1. e4 e5, "); (py "},{", py "1. d4 d5, ")] (py "}]"))
  = [Games.record_of (py "1. e4 e5, "); Games.record_of (py "1. d4 d5, ")].
Proof.
  apply (games_data_are_the_records
           [(py "[{", py "1. e4 e5, "); (py "},{", py "1. d4 d5, ")]
           (py "}]")).
  - repeat constructor.
  - reflexivity.
Defined.

(** X19 on the files of March 2025 of the user [alice]. *)
Lemma downloads_are_listed_witness :
  Listing.sort_item ([], []) (py "alice_2025_03.pgn", true)
  = ([], [py "alice_2025_03.pgn"])
  /\ Listing.sort_item ([], []) (py "alice_2025_03.txt", true)
     = ([py "alice_2025_03.txt"], []).
Proof.
  exact (downloads_are_listed (py "alice") (py "2025") (py "03") [] []
           eq_refl eq_refl eq_refl).
Defined.

End ExtraScenarios.
